(** * Request tracing and call logging: a shallow embedding

  The development follows three source files of the server:
  - [lib/datadog-service.ts]  (module [Datadog]),
  - [lib/logging-service.ts]  (module [Logging]),
  - [lib/trace-context.ts]    (module [Trace]),
  with the interfaces of [types/logging.ts] as records.

  Conventions.  A JavaScript [number] that holds a millisecond count or a
  counter is a [Z]; the two quotients of [getSessionStats] are exact
  rationals ([Q]).  Every reading of [Date.now()] and of
  [crypto.randomUUID()] is an argument of the operation that takes it.
  A thrown JavaScript error is the left injection of a sum. *)

From Stdlib Require Import ZArith QArith String Ascii List Lia Permutation Sorted.
From stdpp Require Import base option list gmap strings pretty.

Open Scope Z_scope.
Open Scope string_scope.

(* ===================================================================== *)
(** ** JavaScript values and containers *)
(* ===================================================================== *)

Module JS.

(** A thrown [Error] with its message. *)
Inductive Err := Error (msg : string).

(** Payloads typed [any] in the source; an object or an array is held
    serialised. *)
Inductive Any :=
| AUndefined
| ANull
| ABool (b : bool)
| ANumber (z : Z)
| AString (s : string)
| AObject (json : string).

(** Truthiness of a string: the empty string is falsy. *)
Definition truthy_string (s : string) : bool :=
  match s with EmptyString => false | String _ _ => true end.

(** Truthiness of an optional string ([undefined] is falsy). *)
Definition truthy (o : option string) : bool :=
  match o with None => false | Some s => truthy_string s end.

(** Truthiness of an optional number (0 is falsy). *)
Definition truthy_num (o : option Z) : bool :=
  match o with None => false | Some z => negb (Z.eqb z 0) end.

Definition truthy_any (a : Any) : bool :=
  match a with
  | AUndefined | ANull => false
  | ABool b => b
  | ANumber z => negb (Z.eqb z 0)
  | AString s => truthy_string s
  | AObject _ => true
  end.

(** The string held by a truthy optional string. *)
Definition the (o : option string) : string := default "" o.

(** [a || b] on optional strings. *)
Definition or_else (a b : option string) : option string :=
  if truthy a then a else b.

(** [a || b] on optional numbers with a number on the right. *)
Definition num_or (a : option Z) (b : Z) : Z :=
  match a with
  | Some z => if Z.eqb z 0 then b else z
  | None => b
  end.

(** [Array.prototype.includes] on strings. *)
Definition includes (l : list string) (s : string) : bool :=
  existsb (String.eqb s) l.

(** *** [Map<string, V>]: an insertion-ordered association list.

    Iteration ([for .. of], [entries()]) visits the entries in insertion
    order; [set] on a present key keeps the key's position. *)
Section Map.
Context {V : Type}.

Definition Map_get (k : string) (m : list (string * V)) : option V :=
  snd <$> List.find (fun e => String.eqb (fst e) k) m.

Definition Map_has (k : string) (m : list (string * V)) : bool :=
  existsb (fun e => String.eqb (fst e) k) m.

Fixpoint Map_set (k : string) (v : V) (m : list (string * V))
  : list (string * V) :=
  match m with
  | [] => [(k, v)]
  | e :: m' =>
      if String.eqb (fst e) k then (k, v) :: m' else e :: Map_set k v m'
  end.

Definition Map_delete (k : string) (m : list (string * V))
  : list (string * V) :=
  List.filter (fun e => negb (String.eqb (fst e) k)) m.

Definition Map_size (m : list (string * V)) : Z := Z.of_nat (length m).

Definition Map_keys (m : list (string * V)) : list string := map fst m.

(** No key occurs twice: the invariant of a [Map]. *)
Definition Map_wf (m : list (string * V)) : Prop := NoDup (Map_keys m).
End Map.

(** *** [Array.prototype.sort] with a numeric key comparator
  [(a, b) => key a - key b].  The sort is stable (ECMAScript 2019):
  an element is placed after the elements whose key is not greater. *)
Section Sort.
Context {A : Type} (key : A -> Z).

Fixpoint sort_insert (x : A) (l : list A) : list A :=
  match l with
  | [] => [x]
  | y :: l' => if Z.leb (key y) (key x) then y :: sort_insert x l' else x :: l
  end.

Definition sort (l : list A) : list A :=
  fold_left (fun acc x => sort_insert x acc) l [].

(** The order the comparator induces. *)
Definition key_le (a b : A) : Prop := key a <= key b.
End Sort.

End JS.

(* ===================================================================== *)
(** ** The interfaces of [types/logging.ts] and [trace-context.ts] *)
(* ===================================================================== *)

Module SpanStatus.
Inductive t := started | completed | error.
End SpanStatus.

Module TraceSpan.
Record t := mk {
  id : string;
  name : string;
  startTime : Z;
  endTime : option Z;
  duration : option Z;
  status : SpanStatus.t;
  metadata : option (list (string * JS.Any));
  error : option string;
  tags : option (list (string * string))
}.
End TraceSpan.

Module TraceMetadata.
Record t := mk {
  procedure : option string;
  userId : option string;
  sessionId : option string;
  ip : option string;
  userAgent : option string;
  requestId : option string
}.
End TraceMetadata.

Module RequestTrace.
Record t := mk {
  traceId : string;
  startTime : Z;
  endTime : option Z;
  duration : option Z;
  spans : list TraceSpan.t;
  metadata : TraceMetadata.t
}.
End RequestTrace.

Inductive Method := query | mutation | subscription.

Module CallMetadata.
Record t := mk {
  userAgent : option string;
  ip : option string;
  method : Method;
  referer : option string;
  origin : option string;
  acceptLanguage : option string;
  acceptEncoding : option string;
  requestId : option string;
  timestamp : option string;
  startTime : option Z;
  endTime : option Z;
  traceId : option string;
  requestDuration : option Z
}.
End CallMetadata.

Module TraceSnapshot.
Record t := mk {
  traceId : string;
  requestStartTime : Z;
  requestEndTime : option Z;
  requestDuration : option Z;
  spans : list TraceSpan.t;
  totalSpans : Z;
  completedSpans : Z;
  errorSpans : Z
}.
End TraceSnapshot.

(** [Omit<TRPCCallLog, 'id' | 'timestamp'>]: the argument of [logCall]. *)
Module CallData.
Record t := mk {
  userId : string;
  sessionId : string;
  procedure : string;
  input : JS.Any;
  output : option JS.Any;
  error : option string;
  duration : Z;
  metadata : CallMetadata.t;
  trace : option TraceSnapshot.t
}.
End CallData.

Module TRPCCallLog.
Record t := mk {
  id : string;
  timestamp : Z;
  userId : string;
  sessionId : string;
  procedure : string;
  input : JS.Any;
  output : option JS.Any;
  error : option string;
  duration : Z;
  metadata : CallMetadata.t;
  trace : option TraceSnapshot.t
}.
End TRPCCallLog.

Module LoggingState.
Record t := mk {
  sessionId : string;
  userId : string;
  startedAt : Z;
  lastActivity : Z;
  totalCalls : Z;
  totalErrors : Z;
  totalDuration : Z
}.
End LoggingState.

Module SessionStats.
Record t := mk {
  totalCalls : Z;
  totalErrors : Z;
  totalDuration : Z;
  averageDuration : Q;
  errorRate : Q;
  sessionDuration : Z
}.
End SessionStats.

(* ===================================================================== *)
(** ** The regular expressions of [parseUserAgent]

    Every pattern of the source is case-insensitive ([/i]) and has one of
    two shapes: an alternation of literals, or a literal followed by one
    group [([class]+)].  [exec] returns the leftmost match. *)
(* ===================================================================== *)

Module Regex.

(** ASCII case folding, which is what [/i] does on these patterns. *)
Definition lower (a : ascii) : ascii :=
  let n := N_of_ascii a in
  if (N.leb 65 n && N.leb n 90)%bool then ascii_of_N (n + 32)%N else a.

Definition eq_ci (a b : ascii) : bool := Ascii.eqb (lower a) (lower b).

(** The rest of [s] after the literal [p], if [s] starts with it. *)
Fixpoint strip_prefix_ci (p s : string) : option string :=
  match p with
  | EmptyString => Some s
  | String a p' =>
      match s with
      | EmptyString => None
      | String b s' => if eq_ci a b then strip_prefix_ci p' s' else None
      end
  end.

(** The longest prefix of [s] made of characters of the class. *)
Fixpoint span_class (cls : ascii -> bool) (s : string) : string :=
  match s with
  | EmptyString => EmptyString
  | String a s' => if cls a then String a (span_class cls s') else EmptyString
  end.

Definition is_digit (a : ascii) : bool :=
  let n := N_of_ascii a in (N.leb 48 n && N.leb n 57)%bool.

(** [[0-9.]], [[0-9_.]] and [[0-9_]]. *)
Definition digits_dot (a : ascii) : bool :=
  (is_digit a || Ascii.eqb a ".")%bool.
Definition digits_underscore_dot (a : ascii) : bool :=
  (is_digit a || Ascii.eqb a "_" || Ascii.eqb a ".")%bool.
Definition digits_underscore (a : ascii) : bool :=
  (is_digit a || Ascii.eqb a "_")%bool.

Inductive t :=
| Alt (literals : list string)
| Group (literal : string) (cls : ascii -> bool).

(** A match of [r] at the start of [s]: [Some g] with [g] the value of
    group 1 ([None] when the pattern has no group). *)
Definition match_here (r : t) (s : string) : option (option string) :=
  match r with
  | Alt literals =>
      if existsb (fun p => bool_decide (is_Some (strip_prefix_ci p s))) literals
      then Some None else None
  | Group literal cls =>
      match strip_prefix_ci literal s with
      | Some rest =>
          let g := span_class cls rest in
          if JS.truthy_string g then Some (Some g) else None
      | None => None
      end
  end.

(** [String.prototype.match(r)] without the [g] flag. *)
Fixpoint exec (r : t) (s : string) : option (option string) :=
  match match_here r s with
  | Some m => Some m
  | None =>
      match s with
      | EmptyString => None
      | String _ s' => exec r s'
      end
  end.

(** [r.test(s)]. *)
Definition test (r : t) (s : string) : bool := bool_decide (is_Some (exec r s)).

(** [s.replace(/_/g, '.')]. *)
Fixpoint replace_underscores (s : string) : string :=
  match s with
  | EmptyString => EmptyString
  | String a s' =>
      String (if Ascii.eqb a "_" then "."%char else a) (replace_underscores s')
  end.

(** [s.replace(/-/g, '')]. *)
Fixpoint remove_dashes (s : string) : string :=
  match s with
  | EmptyString => EmptyString
  | String a s' =>
      if Ascii.eqb a "-" then remove_dashes s' else String a (remove_dashes s')
  end.

End Regex.

(* ===================================================================== *)
(** ** The entry submitted to the log sink *)
(* ===================================================================== *)

Inductive PerformanceCategory := fast | normal | slow.
Inductive LogLevel := level_error | level_warn | level_info.

Definition PerformanceCategory_str (p : PerformanceCategory) : string :=
  match p with fast => "fast" | normal => "normal" | slow => "slow" end.

Definition LogLevel_str (l : LogLevel) : string :=
  match l with
  | level_error => "error" | level_warn => "warn" | level_info => "info"
  end.

(** [logLevel.toUpperCase()]. *)
Definition LogLevel_upper (l : LogLevel) : string :=
  match l with
  | level_error => "ERROR" | level_warn => "WARN" | level_info => "INFO"
  end.

Definition Method_str (m : Method) : string :=
  match m with
  | query => "query" | mutation => "mutation" | subscription => "subscription"
  end.

Definition bool_str (b : bool) : string := if b then "true" else "false".

(** The object returned by [parseUserAgent] when it does not return [{}]. *)
Module DeviceInfo.
Record t := mk {
  browser : string;
  browser_version : string;
  operating_system : string;
  os_version : string;
  device_type : string;
  user_agent : string
}.
End DeviceInfo.

Module Timing.
Record t := mk {
  start_time : Z;
  end_time : Z;
  duration_ms : Z;
  performance_category : PerformanceCategory
}.
End Timing.

Module AdditionalProperties.
Record t := mk {
  call_id : string;
  procedure : string;
  duration : Z;
  performance_category : PerformanceCategory;
  trpc_method : string;
  session_id : string;
  user_id : string;
  http_method : string;
  http_url : string;
  client_ip : option string;
  referer : option string;
  origin : option string;
  accept_language : option string;
  accept_encoding : option string;
  request_id : option string;
  (** [...deviceInfo]: [None] when [parseUserAgent] returned [{}], so that
      none of its six keys is present. *)
  device : option DeviceInfo.t;
  has_error : bool;
  (** [error_message] and [error_type], present together. *)
  error_fields : option (string * string);
  request_payload : JS.Any;
  response_payload : option JS.Any;
  timing : Timing.t;
  trace : option TraceSnapshot.t
}.
End AdditionalProperties.

Module LogEntry.
Record t := mk {
  message : string;
  status : LogLevel;
  service : string;
  ddsource : string;
  ddtags : string;
  hostname : string;
  timestamp : Z;
  dd_trace_id : string;
  dd_span_id : string;
  additionalProperties : AdditionalProperties.t
}.
End LogEntry.

(* ===================================================================== *)
(** ** Effects: state and thrown errors *)
(* ===================================================================== *)

Module Eff.

(** A computation over a state [S] that may throw; the state reached is
    kept either way, as a JavaScript [throw] undoes nothing. *)
Definition M (S A : Type) : Type := S -> (JS.Err + A) * S.

Definition ret {S A} (a : A) : M S A := fun s => (inr a, s).

Definition bind {S A B} (m : M S A) (k : A -> M S B) : M S B :=
  fun s =>
    match m s with
    | (inr a, s') => k a s'
    | (inl e, s') => (inl e, s')
    end.

Definition throw {S A} (e : JS.Err) : M S A := fun s => (inl e, s).

(** [try { body } catch (e) { handler e }]. *)
Definition try_catch {S A} (body : M S A) (handler : JS.Err -> M S A)
  : M S A :=
  fun s =>
    match body s with
    | (inr a, s') => (inr a, s')
    | (inl e, s') => handler e s'
    end.

Definition get {S} : M S S := fun s => (inr s, s).

Definition put {S} (s : S) : M S unit := fun _ => (inr tt, s).

(** The outcome and the final state of a run. *)
Definition outcome {S A} (m : M S A) (s : S) : JS.Err + A := fst (m s).
Definition final {S A} (m : M S A) (s : S) : S := snd (m s).

End Eff.

(** The computations use stdpp's monad notations [x ← m; k] and [m;; k]. *)
#[global] Instance M_ret {S} : MRet (Eff.M S) := @Eff.ret S.
#[global] Instance M_bind {S} : MBind (Eff.M S) :=
  fun A B k m => Eff.bind m k.

(** *** The state of the logging services: the module-level [sessionStats]
    map of [logging-service.ts], the bodies handed to [submitLog] so far,
    and what was written to the console. *)
Module Runtime.

Inductive ConsoleLine := console_error (text : string) (e : JS.Err).

Record World := mkWorld {
  sessionStats : gmap string LoggingState.t;
  submitted : list (list LogEntry.t);
  console : list ConsoleLine
}.

Definition get_sessions : Eff.M World (gmap string LoggingState.t) :=
  fun w => (inr (sessionStats w), w).

Definition put_sessions (s : gmap string LoggingState.t) : Eff.M World unit :=
  fun w => (inr tt, mkWorld s (submitted w) (console w)).

Definition log_error (text : string) (e : JS.Err) : Eff.M World unit :=
  fun w =>
    (inr tt, mkWorld (sessionStats w) (submitted w)
                     (console w ++ [console_error text e])).

End Runtime.

(* ===================================================================== *)
(** ** [lib/datadog-service.ts] *)
(* ===================================================================== *)

Module Datadog.
Import Eff Runtime.

(** [generateId]: a UUID without its dashes. *)
Definition generateId (uuid : string) : string := Regex.remove_dashes uuid.

Definition loggingProcedures : list string :=
  [ "logging.getSessionStats";
    "logging.clearSession";
    "logging.getSessionState";
    "logging.exportToDatadog" ].

Definition isLoggingProcedure (procedure : string) : bool :=
  JS.includes loggingProcedures procedure.

Definition browsers : list (string * Regex.t) :=
  [ ("chrome", Regex.Group "Chrome/" Regex.digits_dot);
    ("firefox", Regex.Group "Firefox/" Regex.digits_dot);
    ("safari", Regex.Group "Safari/" Regex.digits_dot);
    ("edge", Regex.Group "Edg/" Regex.digits_dot) ].

Definition os : list (string * Regex.t) :=
  [ ("windows", Regex.Group "Windows NT " Regex.digits_dot);
    ("macos", Regex.Group "Mac OS X " Regex.digits_underscore_dot);
    ("linux", Regex.Alt ["Linux"]);
    ("android", Regex.Group "Android " Regex.digits_dot);
    ("ios", Regex.Group "OS " Regex.digits_underscore) ].

Definition devices : list (string * Regex.t) :=
  [ ("mobile", Regex.Alt ["Mobile"; "Android"; "iPhone"]);
    ("tablet", Regex.Alt ["iPad"; "Tablet"]);
    ("desktop", Regex.Alt ["Windows"; "Mac"; "Linux"]) ].

(** [for (const [name, regex] of Object.entries(table))] with a [break] at
    the first match: the name and the value of group 1. *)
Fixpoint first_match (table : list (string * Regex.t)) (userAgent : string)
  : option (string * option string) :=
  match table with
  | [] => None
  | (name, regex) :: rest =>
      match Regex.exec regex userAgent with
      | Some g => Some (name, g)
      | None => first_match rest userAgent
      end
  end.

(** The same loop with [regex.test]. *)
Fixpoint first_test (table : list (string * Regex.t)) (userAgent : string)
  : option string :=
  match table with
  | [] => None
  | (name, regex) :: rest =>
      if Regex.test regex userAgent then Some name
      else first_test rest userAgent
  end.

(** The arrow function [parseUserAgent] of [logSingleCall].  [None] is the
    empty object [{}] of its first line. *)
Definition parseUserAgent (userAgent : option string) : option DeviceInfo.t :=
  match userAgent with
  | None => None
  | Some ua =>
      if negb (JS.truthy_string ua) then None
      else
        let '(browser, browserVersion) :=
          match first_match browsers ua with
          | Some (name, g) => (name, default "" g)
          | None => ("unknown", "")
          end in
        let '(operatingSystem, osVersion) :=
          match first_match os ua with
          | Some (name, g) =>
              (name, match g with
                     | Some v => Regex.replace_underscores v
                     | None => ""
                     end)
          | None => ("unknown", "")
          end in
        let deviceType := default "unknown" (first_test devices ua) in
        Some (DeviceInfo.mk browser browserVersion operatingSystem osVersion
                            deviceType ua)
  end.

Definition performanceCategory (duration : Z) : PerformanceCategory :=
  if Z.ltb duration 100 then fast
  else if Z.ltb duration 500 then normal
  else slow.

Definition hasError (log : TRPCCallLog.t) : bool :=
  JS.truthy (TRPCCallLog.error log).

Definition logLevel (log : TRPCCallLog.t) : LogLevel :=
  if hasError log then level_error
  else match performanceCategory (TRPCCallLog.duration log) with
       | slow => level_warn
       | _ => level_info
       end.

(** [`${x}`] for a property that may be [undefined]. *)
Definition template (o : option string) : string := default "undefined" o.

(** The [logEntry] object built in [logSingleCall] from the two fresh UUIDs. *)
Definition logEntry (uuid1 uuid2 : string) (sessionId userId : string)
  (log : TRPCCallLog.t) : LogEntry.t :=
  let traceId := generateId uuid1 in
  let spanId := generateId uuid2 in
  let category := performanceCategory (TRPCCallLog.duration log) in
  let md := TRPCCallLog.metadata log in
  let deviceInfo := parseUserAgent (CallMetadata.userAgent md) in
  let procedure := TRPCCallLog.procedure log in
  let duration := pretty (TRPCCallLog.duration log) in
  LogEntry.mk
    (LogLevel_upper (logLevel log) +:+ ": TRPC call: [" +:+ procedure
       +:+ "] (" +:+ duration +:+ "ms)")
    (logLevel log)
    "zero-mail-app"
    "trpc-logging"
    ("session:" +:+ sessionId +:+ ",user:" +:+ userId
       +:+ ",procedure:" +:+ procedure
       +:+ ",duration:" +:+ duration +:+ "ms"
       +:+ ",has_error:" +:+ bool_str (hasError log)
       +:+ ",performance:" +:+ PerformanceCategory_str category
       +:+ ",browser:" +:+ template (DeviceInfo.browser <$> deviceInfo)
       +:+ ",device:" +:+ template (DeviceInfo.device_type <$> deviceInfo))
    "cloudflare-worker"
    (TRPCCallLog.timestamp log)
    traceId
    spanId
    (AdditionalProperties.mk
       (TRPCCallLog.id log)
       procedure
       (TRPCCallLog.duration log)
       category
       (Method_str (CallMetadata.method md))
       sessionId
       userId
       "POST"
       ("/api/trpc/" +:+ procedure)
       (CallMetadata.ip md)
       (CallMetadata.referer md)
       (CallMetadata.origin md)
       (CallMetadata.acceptLanguage md)
       (CallMetadata.acceptEncoding md)
       (CallMetadata.requestId md)
       deviceInfo
       (hasError log)
       (if hasError log
        then Some (default "" (TRPCCallLog.error log), "trpc_error")
        else None)
       (TRPCCallLog.input log)
       (match TRPCCallLog.output log with
        | Some o => if JS.truthy_any o then Some o else None
        | None => None
        end)
       (Timing.mk
          (JS.num_or (CallMetadata.startTime md) (TRPCCallLog.timestamp log))
          (JS.num_or (CallMetadata.endTime md)
             (TRPCCallLog.timestamp log + TRPCCallLog.duration log))
          (TRPCCallLog.duration log)
          category)
       (TRPCCallLog.trace log)).

Definition failure_text : string := "Failed to log TRPC call to Datadog:".

Section Sink.
(** The external sink: [None] when the submission resolves, [Some e] when
    it rejects with [e]. *)
Variable sink : list LogEntry.t -> option JS.Err.

(** [await this.apiInstance.submitLog({ body })]. *)
Definition submitLog (body : list LogEntry.t) : M World unit :=
  fun w =>
    let w' := mkWorld (sessionStats w) (submitted w ++ [body]) (console w) in
    match sink body with
    | Some e => (inl e, w')
    | None => (inr tt, w')
    end.

Definition logSingleCall (uuid1 uuid2 : string) (sessionId userId : string)
  (log : TRPCCallLog.t) : M World unit :=
  if isLoggingProcedure (TRPCCallLog.procedure log) then mret tt
  else
    try_catch
      (submitLog [logEntry uuid1 uuid2 sessionId userId log])
      (fun e => log_error failure_text e).

End Sink.
End Datadog.

(* ===================================================================== *)
(** ** [lib/logging-service.ts] *)
(* ===================================================================== *)

Module Logging.
Import Eff Runtime.

(** What one [logCall] reads from [crypto.randomUUID()] and [Date.now()]:
    the identifier and timestamp it stamps, the two UUIDs of
    [logSingleCall], and the clock when the statistics are updated. *)
Record Readings := mkReadings {
  uuid : string;
  stamp : Z;
  uuid1 : string;
  uuid2 : string;
  now : Z
}.

(** [{ ...callData, id, timestamp }]. *)
Definition stamped (id : string) (timestamp : Z) (callData : CallData.t)
  : TRPCCallLog.t :=
  TRPCCallLog.mk id timestamp
    (CallData.userId callData) (CallData.sessionId callData)
    (CallData.procedure callData) (CallData.input callData)
    (CallData.output callData) (CallData.error callData)
    (CallData.duration callData) (CallData.metadata callData)
    (CallData.trace callData).

(** The zeroed aggregate written in three places of the source. *)
Definition zeroed (sessionId userId : string) (now : Z) : LoggingState.t :=
  LoggingState.mk sessionId userId now now 0 0 0.

(** The assignments of [updateSessionStats] on [currentState]. *)
Definition recorded (currentState : LoggingState.t) (log : TRPCCallLog.t)
  : LoggingState.t :=
  LoggingState.mk
    (LoggingState.sessionId currentState)
    (LoggingState.userId currentState)
    (LoggingState.startedAt currentState)
    (TRPCCallLog.timestamp log)
    (LoggingState.totalCalls currentState + 1)
    (if JS.truthy (TRPCCallLog.error log)
     then LoggingState.totalErrors currentState + 1
     else LoggingState.totalErrors currentState)
    (LoggingState.totalDuration currentState + TRPCCallLog.duration log).

Definition updateSessionStats (now : Z) (sessionId userId : string)
  (log : TRPCCallLog.t) : M World unit :=
  sessions ← get_sessions;
  let currentState :=
    match sessions !! sessionId with
    | Some state => state
    | None => zeroed sessionId userId now
    end in
  put_sessions (<[sessionId := recorded currentState log]> sessions).

Definition getState (now : Z) (sessionId : string) : M World LoggingState.t :=
  sessions ← get_sessions;
  match sessions !! sessionId with
  | Some state => mret state
  | None =>
      let state := zeroed sessionId "" now in
      put_sessions (<[sessionId := state]> sessions);;
      mret state
  end.

Definition initializeSession (now : Z) (sessionId userId : string) : M World unit :=
  state ← getState now sessionId;
  sessions ← get_sessions;
  put_sessions
    (<[sessionId :=
         LoggingState.mk sessionId userId now now
           (LoggingState.totalCalls state)
           (LoggingState.totalErrors state)
           (LoggingState.totalDuration state)]> sessions).

Definition getSessionStats (now : Z) (sessionId : string)
  : M World SessionStats.t :=
  state ← getState now sessionId;
  let totalCalls := LoggingState.totalCalls state in
  let totalErrors := LoggingState.totalErrors state in
  let totalDuration := LoggingState.totalDuration state in
  mret (SessionStats.mk totalCalls totalErrors totalDuration
          (if Z.ltb 0 totalCalls
           then Qdiv (inject_Z totalDuration) (inject_Z totalCalls)
           else inject_Z 0)
          (if Z.ltb 0 totalCalls
           then Qmult (Qdiv (inject_Z totalErrors) (inject_Z totalCalls))
                      (inject_Z 100)
           else inject_Z 0)
          (now - LoggingState.startedAt state)).

Definition clearSession (now : Z) (sessionId : string) : M World unit :=
  sessions ← get_sessions;
  put_sessions (<[sessionId := zeroed sessionId "" now]> sessions).

Section Sink.
Variable sink : list LogEntry.t -> option JS.Err.

Definition logCall (r : Readings) (callData : CallData.t) : M World unit :=
  let log := stamped (uuid r) (stamp r) callData in
  try_catch
    (Datadog.logSingleCall sink (uuid1 r) (uuid2 r)
       (CallData.sessionId callData) (CallData.userId callData) log)
    (fun e => log_error Datadog.failure_text e);;
  updateSessionStats (now r) (CallData.sessionId callData)
    (CallData.userId callData) log.

(** A sequence of calls of [logCall], each with its own readings. *)
Fixpoint logCalls (calls : list (Readings * CallData.t)) : M World unit :=
  match calls with
  | [] => mret tt
  | (r, callData) :: rest => logCall r callData;; logCalls rest
  end.

End Sink.

(** *** Observations used to state the properties *)

(** The aggregate [updateSessionStats] starts from: [currentState] after
    its [if (!currentState)]. *)
Definition prior (w : World) (sessionId userId : string) (now : Z)
  : LoggingState.t :=
  default (zeroed sessionId userId now) (sessionStats w !! sessionId).

(** The entry [logSingleCall] builds for a call of [logCall]. *)
Definition exported (r : Readings) (callData : CallData.t) : LogEntry.t :=
  Datadog.logEntry (uuid1 r) (uuid2 r) (CallData.sessionId callData)
    (CallData.userId callData) (stamped (uuid r) (stamp r) callData).



(** A call carries an error when its [error] is truthy, the test of
    [updateSessionStats] and of [hasError] in [logSingleCall]. *)
Definition carriesError (callData : CallData.t) : bool :=
  JS.truthy (CallData.error callData).




(** The three counters of an aggregate, zero when the session is absent. *)
Definition counters (state : option LoggingState.t) : Z * Z * Z :=
  match state with
  | Some st =>
      (LoggingState.totalCalls st, LoggingState.totalErrors st,
       LoggingState.totalDuration st)
  | None => (0, 0, 0)
  end.

End Logging.

(* ===================================================================== *)
(** ** [lib/trace-context.ts] *)
(* ===================================================================== *)

(** [Omit<TraceSpan, 'id' | 'startTime' | 'status'>]. *)
Module SpanSpec.
Record t := mk {
  name : string;
  endTime : option Z;
  duration : option Z;
  metadata : option (list (string * JS.Any));
  error : option string;
  tags : option (list (string * string))
}.
End SpanSpec.

(** The request context [c] as the helpers read it: [c.var?.traceId],
    [c.get], [c.req?.header] and [c.req?.headers?.get], each possibly
    missing. *)
Module Ctx.
Record t := mk {
  var_traceId : option string;
  get : option (string -> option string);
  req_header : option (string -> option string);
  req_headers_get : option (string -> option string)
}.
End Ctx.

Module Trace.
Import Eff.

(** The private field [traces]. *)
Abbreviation Store := (list (string * RequestTrace.t)).

Definition MAX_TRACES : Z := 10000.
Definition TRACE_TTL_MS : Z := 5 * 60 * 1000.

Definition start_of (e : string * RequestTrace.t) : Z :=
  RequestTrace.startTime (snd e).

(** The first loop of [performCleanup]: the ids pushed on [tracesToDelete]. *)
Definition tracesToDelete (now : Z) (traces : Store) : list string :=
  map fst
    (List.filter (fun e => Z.ltb TRACE_TTL_MS (now - start_of e)) traces).

(** [for (const traceId of ids) this.traces.delete(traceId)]. *)
Definition delete_each (ids : list string) (traces : Store) : Store :=
  fold_left (fun m traceId => JS.Map_delete traceId m) ids traces.

(** The store after the two loops that remove the stale traces. *)
Definition removeStale (now : Z) (traces : Store) : Store :=
  delete_each (tracesToDelete now traces) traces.

(** The [if (this.traces.size > this.MAX_TRACES)] block. *)
Definition evictOldest (traces : Store) : Store :=
  if Z.ltb MAX_TRACES (JS.Map_size traces) then
    let sortedTraces := JS.sort start_of traces in
    let excessCount := JS.Map_size traces - MAX_TRACES in
    delete_each (map fst (firstn (Z.to_nat excessCount) sortedTraces)) traces
  else traces.

(** [performCleanup]; its [console.debug] line is not part of the state. *)
Definition performCleanup (now : Z) (traces : Store) : Store :=
  evictOldest (removeStale now traces).

Definition getStats (now : Z) (traces : Store) : Z * Z :=
  if Z.eqb (JS.Map_size traces) 0 then (0, 0)
  else
    (JS.Map_size traces,
     fold_left (fun oldestAge e => Z.max oldestAge (now - start_of e))
               traces 0).

(** [this.traces.size >= this.MAX_TRACES * 0.9]; the product is the double
    9000, so the exact rational comparison decides the same. *)
Definition nearCapacity (traces : Store) : bool :=
  Qle_bool (Qmult (inject_Z MAX_TRACES) (9 # 10))
           (inject_Z (JS.Map_size traces)).

Definition createTrace (now : Z) (traceId : string)
  (metadata : TraceMetadata.t) : M Store RequestTrace.t :=
  traces ← get;
  match JS.Map_get traceId traces with
  | Some existing => mret existing
  | None =>
      let traces :=
        if nearCapacity traces then performCleanup now traces else traces in
      let trace := RequestTrace.mk traceId now None None [] metadata in
      put (JS.Map_set traceId trace traces);;
      mret trace
  end.

Definition getTrace (traceId : string) (traces : Store)
  : option RequestTrace.t :=
  JS.Map_get traceId traces.

(** [trace.spans = spans], the other fields kept. *)
Definition with_spans (trace : RequestTrace.t) (spans : list TraceSpan.t)
  : RequestTrace.t :=
  RequestTrace.mk (RequestTrace.traceId trace) (RequestTrace.startTime trace)
    (RequestTrace.endTime trace) (RequestTrace.duration trace) spans
    (RequestTrace.metadata trace).

Definition addSpan (uuid : string) (now : Z) (traceId : string)
  (span : SpanSpec.t) : M Store TraceSpan.t :=
  traces ← get;
  match JS.Map_get traceId traces with
  | None => throw (JS.Error ("Trace not found: " +:+ traceId))
  | Some trace =>
      let fullSpan :=
        TraceSpan.mk uuid (SpanSpec.name span) now (SpanSpec.endTime span)
          (SpanSpec.duration span) SpanStatus.started (SpanSpec.metadata span)
          (SpanSpec.error span) (SpanSpec.tags span) in
      put (JS.Map_set traceId
             (with_spans trace (RequestTrace.spans trace ++ [fullSpan]))
             traces);;
      mret fullSpan
  end.

(** [{ ...a, ...b }] on objects held as key-value lists. *)
Definition spread (a b : list (string * JS.Any)) : list (string * JS.Any) :=
  fold_left (fun acc kv => JS.Map_set (fst kv) (snd kv) acc) b a.

(** The assignments of [completeSpan] on the span it found. *)
Definition completed_span (now : Z)
  (metadata : option (list (string * JS.Any))) (error : option string)
  (span : TraceSpan.t) : TraceSpan.t :=
  TraceSpan.mk
    (TraceSpan.id span)
    (TraceSpan.name span)
    (TraceSpan.startTime span)
    (Some now)
    (Some (now - TraceSpan.startTime span))
    (if JS.truthy error then SpanStatus.error else SpanStatus.completed)
    (match metadata with
     | Some md =>
         match TraceSpan.metadata span with
         | Some old => Some (spread old md)
         | None => Some md
         end
     | None => TraceSpan.metadata span
     end)
    (if JS.truthy error then error else TraceSpan.error span)
    (TraceSpan.tags span).

(** The spans with the first one whose id is [spanId] replaced by its image
    under [f]: [find] returns the first match and the assignments act on
    that object. *)
Fixpoint update_found (spanId : string) (f : TraceSpan.t -> TraceSpan.t)
  (spans : list TraceSpan.t) : list TraceSpan.t :=
  match spans with
  | [] => []
  | s :: rest =>
      if String.eqb (TraceSpan.id s) spanId then f s :: rest
      else s :: update_found spanId f rest
  end.

Definition completeSpan (now : Z) (traceId spanId : string)
  (metadata : option (list (string * JS.Any))) (error : option string)
  : M Store unit :=
  traces ← get;
  match JS.Map_get traceId traces with
  | None => mret tt
  | Some trace =>
      match List.find (fun s => String.eqb (TraceSpan.id s) spanId)
                      (RequestTrace.spans trace) with
      | None => mret tt
      | Some _ =>
          put (JS.Map_set traceId
                 (with_spans trace
                    (update_found spanId (completed_span now metadata error)
                       (RequestTrace.spans trace)))
                 traces)
      end
  end.

(** [completeTrace]; the callback it hands to [setTimeout] is
    [timeoutCallback] below. *)
Definition completeTrace (now : Z) (traceId : string)
  : M Store (option RequestTrace.t) :=
  traces ← get;
  match JS.Map_get traceId traces with
  | None => mret None
  | Some trace =>
      let trace' :=
        RequestTrace.mk (RequestTrace.traceId trace)
          (RequestTrace.startTime trace) (Some now)
          (Some (now - RequestTrace.startTime trace))
          (RequestTrace.spans trace) (RequestTrace.metadata trace) in
      put (JS.Map_set traceId trace' traces);;
      mret (Some trace')
  end.

(** [() => { this.traces.delete(traceId) }], run ten seconds later. *)
Definition timeoutCallback (traceId : string) (traces : Store) : Store :=
  JS.Map_delete traceId traces.

(** [destroy]: [this.traces.clear()]. *)
Definition destroy (traces : Store) : Store := [].

Definition startSpan (uuid : string) (now : Z) (traceId name : string)
  (metadata : option (list (string * JS.Any)))
  (tags : option (list (string * string))) : M Store TraceSpan.t :=
  addSpan uuid now traceId (SpanSpec.mk name None None metadata None tags).

(** [f?.(x)]. *)
Definition call (f : option (string -> option string)) (x : string)
  : option string :=
  match f with Some g => g x | None => None end.

Definition getTraceId (c : Ctx.t) : option string :=
  JS.or_else
    (JS.or_else
       (JS.or_else (Ctx.var_traceId c) (call (Ctx.get c) "traceId"))
       (call (Ctx.req_header c) "X-Trace-ID"))
    (call (Ctx.req_header c) "x-trace-id").

Definition getRequestTrace (c : Ctx.t) (traces : Store)
  : option RequestTrace.t :=
  let traceId := JS.or_else (Ctx.var_traceId c) (call (Ctx.get c) "traceId") in
  if negb (JS.truthy traceId) then
    let headerTraceId :=
      JS.or_else
        (JS.or_else
           (JS.or_else (call (Ctx.req_header c) "X-Trace-ID")
                       (call (Ctx.req_header c) "x-trace-id"))
           (call (Ctx.req_headers_get c) "X-Trace-ID"))
        (call (Ctx.req_headers_get c) "x-trace-id") in
    if negb (JS.truthy headerTraceId) then None
    else getTrace (JS.the headerTraceId) traces
  else getTrace (JS.the traceId) traces.

Definition addRequestSpan (uuid : string) (now : Z) (c : Ctx.t)
  (name : string) (metadata : option (list (string * JS.Any)))
  (tags : option (list (string * string)))
  : M Store (option TraceSpan.t) :=
  let traceId := getTraceId c in
  if negb (JS.truthy traceId) then mret None
  else
    span ← startSpan uuid now (JS.the traceId) name metadata tags;
    mret (Some span).

Definition completeRequestSpan (now : Z) (c : Ctx.t) (spanId : string)
  (metadata : option (list (string * JS.Any))) (error : option string)
  : M Store unit :=
  let traceId := getTraceId c in
  if negb (JS.truthy traceId) then mret tt
  else completeSpan now (JS.the traceId) spanId metadata error.

(** *** Runs of the store.  An operation is a call of a public method or
    helper, or one of the two callbacks the class registers: the interval
    callback ([performCleanup]) and the timeout callback of
    [completeTrace].  The callbacks may run between any two calls. *)
Inductive Op :=
| CreateTrace (now : Z) (traceId : string) (metadata : TraceMetadata.t)
| AddSpan (uuid : string) (now : Z) (traceId : string) (span : SpanSpec.t)
| CompleteSpan (now : Z) (traceId spanId : string)
    (metadata : option (list (string * JS.Any))) (error : option string)
| CompleteTrace (now : Z) (traceId : string)
| AddRequestSpan (uuid : string) (now : Z) (c : Ctx.t) (name : string)
    (metadata : option (list (string * JS.Any)))
    (tags : option (list (string * string)))
| CompleteRequestSpan (now : Z) (c : Ctx.t) (spanId : string)
    (metadata : option (list (string * JS.Any))) (error : option string)
| Interval (now : Z)
| Timeout (traceId : string)
| Destroy.

(** The store after one operation, whether it returned or threw. *)
Definition step (traces : Store) (op : Op) : Store :=
  match op with
  | CreateTrace now traceId metadata =>
      final (createTrace now traceId metadata) traces
  | AddSpan uuid now traceId span =>
      final (addSpan uuid now traceId span) traces
  | CompleteSpan now traceId spanId metadata error =>
      final (completeSpan now traceId spanId metadata error) traces
  | CompleteTrace now traceId => final (completeTrace now traceId) traces
  | AddRequestSpan uuid now c name metadata tags =>
      final (addRequestSpan uuid now c name metadata tags) traces
  | CompleteRequestSpan now c spanId metadata error =>
      final (completeRequestSpan now c spanId metadata error) traces
  | Interval now => performCleanup now traces
  | Timeout traceId => timeoutCallback traceId traces
  | Destroy => destroy traces
  end.

Definition run (ops : list Op) (traces : Store) : Store :=
  fold_left step ops traces.

(** *** Observations on a store, used to state the properties *)

(** The entries of [before] whose key is no longer in [after]. *)
Definition removed (before after : Store) : Store :=
  List.filter (fun e => negb (JS.Map_has (fst e) after)) before.

(** The span at position [i] of the trace [traceId]. *)
Definition span_at (traces : Store) (traceId : string) (i : nat)
  : option TraceSpan.t :=
  match getTrace traceId traces with
  | Some trace => nth_error (RequestTrace.spans trace) i
  | None => None
  end.

Definition status_at (traces : Store) (traceId : string) (i : nat)
  : option SpanStatus.t :=
  TraceSpan.status <$> span_at traces traceId i.

(** ['completed'] and ['error'] are the terminal statuses. *)
Definition terminal (s : SpanStatus.t) : bool :=
  match s with
  | SpanStatus.started => false
  | SpanStatus.completed | SpanStatus.error => true
  end.

(** A span list evolves: every position keeps its span id, and a terminal
    status stays terminal. *)
Definition evolves (spans spans' : list TraceSpan.t) : Prop :=
  forall i span,
    nth_error spans i = Some span ->
    exists span',
      nth_error spans' i = Some span'
      /\ TraceSpan.id span' = TraceSpan.id span
      /\ (terminal (TraceSpan.status span) = true ->
          terminal (TraceSpan.status span') = true).

(** The trace [traceId] is in the store after each operation of the run. *)
Fixpoint stays (traceId : string) (ops : list Op) (traces : Store) : bool :=
  match ops with
  | [] => true
  | op :: ops' =>
      match getTrace traceId (step traces op) with
      | Some _ => stays traceId ops' (step traces op)
      | None => false
      end
  end.

End Trace.

(* ===================================================================== *)
(** ** Sample data for the concrete runs *)
(* ===================================================================== *)

Module Sample.

Definition metadata : TraceMetadata.t :=
  TraceMetadata.mk None None None None None None.

(** The trace [createTrace] allocates. *)
Definition newTrace (traceId : string) (now : Z) : RequestTrace.t :=
  RequestTrace.mk traceId now None None [] metadata.

(** [n] calls of [createTrace] at time 0 with the ids ["0"], ["1"], ... *)
Definition creates (n : nat) : list Trace.Op :=
  map (fun i => Trace.CreateTrace 0 (pretty i) metadata) (seq 0 n).

(** The store these calls build. *)
Definition created (n : nat) : Trace.Store :=
  map (fun i => (pretty i, newTrace (pretty i) 0)) (seq 0 n).

Definition callMetadata : CallMetadata.t :=
  CallMetadata.mk None None query None None None None None None None None
    None None.

Definition call (sessionId userId procedure : string) (duration : Z)
  (error : option string) : CallData.t :=
  CallData.mk userId sessionId procedure JS.ANull None error duration
    callMetadata None.

Definition readings (stamp : Z) : Logging.Readings :=
  Logging.mkReadings "6f1c2a90-0000-4000-8000-000000000001" stamp
    "6f1c2a90-0000-4000-8000-000000000002"
    "6f1c2a90-0000-4000-8000-000000000003" stamp.

Definition emptyWorld : Runtime.World := Runtime.mkWorld ∅ [] [].

(** A sink that accepts everything and one that rejects everything. *)
Definition accepting : list LogEntry.t -> option JS.Err := fun _ => None.
Definition rejecting : list LogEntry.t -> option JS.Err :=
  fun _ => Some (JS.Error "503 Service Unavailable").

(** A context whose variable holds the trace id. *)
Definition context (traceId : string) : Ctx.t :=
  Ctx.mk (Some traceId) None None None.

End Sample.

(* ===================================================================== *)
(** ** Further observations on the trace store *)
(* ===================================================================== *)

Module TraceInv.

(** The span [addSpan] builds from its argument. *)
Definition fullSpan (uuid : string) (now : Z) (span : SpanSpec.t)
  : TraceSpan.t :=
  TraceSpan.mk uuid (SpanSpec.name span) now (SpanSpec.endTime span)
    (SpanSpec.duration span) SpanStatus.started (SpanSpec.metadata span)
    (SpanSpec.error span) (SpanSpec.tags span).

(** Consecutive calls of [addSpan] on one trace. *)
Definition addSpans (traceId : string)
  (calls : list (string * Z * SpanSpec.t)) : list Trace.Op :=
  map (fun c => Trace.AddSpan (fst (fst c)) (snd (fst c)) traceId (snd c))
      calls.

(** A span is consistent when its timing fields agree with its status: no
    end and no duration while started, both present and
    [duration = endTime - startTime] once terminal, and a truthy error
    message under the status ['error']. *)
Definition consistent (span : TraceSpan.t) : Prop :=
  match TraceSpan.status span with
  | SpanStatus.started =>
      TraceSpan.endTime span = None /\ TraceSpan.duration span = None
  | SpanStatus.completed =>
      exists e,
        TraceSpan.endTime span = Some e
        /\ TraceSpan.duration span = Some (e - TraceSpan.startTime span)
  | SpanStatus.error =>
      (exists e,
          TraceSpan.endTime span = Some e
          /\ TraceSpan.duration span = Some (e - TraceSpan.startTime span))
      /\ JS.truthy (TraceSpan.error span) = true
  end.

(** An operation that starts spans as [startSpan] does: a direct [addSpan]
    is given neither an end timestamp nor a duration. *)
Definition plain (op : Trace.Op) : bool :=
  match op with
  | Trace.AddSpan _ _ _ span =>
      match SpanSpec.endTime span, SpanSpec.duration span with
      | None, None => true
      | _, _ => false
      end
  | _ => true
  end.

(** Every trace is stored under its own identifier. *)
Definition keyed (traces : Trace.Store) : Prop :=
  Forall (fun e => RequestTrace.traceId (snd e) = fst e) traces.

(** Every span of every trace is consistent. *)
Definition all_consistent (traces : Trace.Store) : Prop :=
  Forall (fun e => Forall consistent (RequestTrace.spans (snd e))) traces.

(** The age [performCleanup] computes. *)
Definition age (now : Z) (e : string * RequestTrace.t) : Z :=
  now - Trace.start_of e.

(** The entry an operation hands to [this.traces.set], if it reaches one:
    read off [createTrace], [addSpan], [completeSpan] and [completeTrace],
    where the last three write back the trace object they mutated. *)
Definition written (traces : Trace.Store) (op : Trace.Op)
  : option (string * RequestTrace.t) :=
  let pushed uuid now traceId span :=
    match JS.Map_get traceId traces with
    | Some trace =>
        Some (traceId,
              Trace.with_spans trace
                (RequestTrace.spans trace ++ [fullSpan uuid now span]))
    | None => None
    end in
  let finished now traceId spanId metadata error :=
    match JS.Map_get traceId traces with
    | Some trace =>
        match List.find (fun s => String.eqb (TraceSpan.id s) spanId)
                        (RequestTrace.spans trace) with
        | Some _ =>
            Some (traceId,
                  Trace.with_spans trace
                    (Trace.update_found spanId
                       (Trace.completed_span now metadata error)
                       (RequestTrace.spans trace)))
        | None => None
        end
    | None => None
    end in
  match op with
  | Trace.CreateTrace now traceId metadata =>
      match JS.Map_get traceId traces with
      | Some _ => None
      | None =>
          Some (traceId, RequestTrace.mk traceId now None None [] metadata)
      end
  | Trace.AddSpan uuid now traceId span => pushed uuid now traceId span
  | Trace.CompleteSpan now traceId spanId metadata error =>
      finished now traceId spanId metadata error
  | Trace.CompleteTrace now traceId =>
      match JS.Map_get traceId traces with
      | Some trace =>
          Some (traceId,
                RequestTrace.mk (RequestTrace.traceId trace)
                  (RequestTrace.startTime trace) (Some now)
                  (Some (now - RequestTrace.startTime trace))
                  (RequestTrace.spans trace) (RequestTrace.metadata trace))
      | None => None
      end
  | Trace.AddRequestSpan uuid now c name metadata tags =>
      if negb (JS.truthy (Trace.getTraceId c)) then None
      else pushed uuid now (JS.the (Trace.getTraceId c))
             (SpanSpec.mk name None None metadata None tags)
  | Trace.CompleteRequestSpan now c spanId metadata error =>
      if negb (JS.truthy (Trace.getTraceId c)) then None
      else finished now (JS.the (Trace.getTraceId c)) spanId metadata error
  | Trace.Interval _ | Trace.Timeout _ | Trace.Destroy => None
  end.

End TraceInv.

(* ===================================================================== *)
(** ** Runs of the logging service *)
(* ===================================================================== *)

Module Service.
Import Eff Runtime.

(** A call of a public method of [LoggingService]. *)
Inductive Op :=
| LogCall (r : Logging.Readings) (callData : CallData.t)
| GetState (now : Z) (sessionId : string)
| InitializeSession (now : Z) (sessionId userId : string)
| GetSessionStats (now : Z) (sessionId : string)
| ClearSession (now : Z) (sessionId : string).

Section Sink.
Variable sink : list LogEntry.t -> option JS.Err.

Definition step (w : World) (op : Op) : World :=
  match op with
  | LogCall r callData => final (Logging.logCall sink r callData) w
  | GetState now sessionId => final (Logging.getState now sessionId) w
  | InitializeSession now sessionId userId =>
      final (Logging.initializeSession now sessionId userId) w
  | GetSessionStats now sessionId =>
      final (Logging.getSessionStats now sessionId) w
  | ClearSession now sessionId => final (Logging.clearSession now sessionId) w
  end.

Definition run (ops : list Op) (w : World) : World := fold_left step ops w.

End Sink.



End Service.

(* ===================================================================== *)
(** ** Observations on user-agent strings *)
(* ===================================================================== *)

Module UA.

(** Every character of [s] is in the class. *)
Fixpoint all (cls : ascii -> bool) (s : string) : bool :=
  match s with
  | EmptyString => true
  | String a s' => cls a && all cls s'
  end.

(** [s] with its ASCII capitals turned into small letters. *)
Fixpoint lower_string (s : string) : string :=
  match s with
  | EmptyString => EmptyString
  | String a s' => String (Regex.lower a) (lower_string s')
  end.

(** [s] has an occurrence of the literal, whatever the case of its
    letters. *)
Definition contains (literal s : string) : bool :=
  Regex.test (Regex.Alt [literal]) s.

(** A class of characters that case folding neither enters nor leaves. *)
Definition caseless (cls : ascii -> bool) : Prop :=
  forall a,
    cls (Regex.lower a) = cls a /\ (cls a = true -> Regex.lower a = a).

(** A pattern whose group, if it has one, is over such a class. *)
Definition caseless_regex (r : Regex.t) : Prop :=
  match r with
  | Regex.Alt _ => True
  | Regex.Group _ cls => caseless cls
  end.

(** The classification of a user agent without the echoed string. *)
Definition classification (info : DeviceInfo.t)
  : string * string * string * string * string :=
  (DeviceInfo.browser info, DeviceInfo.browser_version info,
   DeviceInfo.operating_system info, DeviceInfo.os_version info,
   DeviceInfo.device_type info).

End UA.

(* ===================================================================== *)
(** ** Service construction, the tRPC middleware and the logging router *)
(* ===================================================================== *)

(** The fields of [ZeroEnv] the services read. *)
Module Env.
Record t := mk {
  DD_API_KEY : option string;
  DD_APP_KEY : option string;
  DD_SITE : option string
}.
End Env.

Module Config.

(** What the constructor of [DatadogService] keeps. *)
Record DatadogService := mkService {
  apiKey : string;
  appKey : string;
  site : string
}.

Definition api_key_required : string :=
  "DD_API_KEY environment variable is required and cannot be empty for Datadog service".

Definition app_key_required : string :=
  "DD_APP_KEY environment variable is required and cannot be empty for Datadog service".

Section Trim.
(** [String.prototype.trim], taken as given. *)
Variable trim : string -> string.

(** [!key || key.trim() === ''] *)
Definition blank (key : option string) : bool :=
  negb (JS.truthy key) || String.eqb (trim (JS.the key)) "".

(** The constructor of [DatadogService]. *)
Definition newDatadogService (env : option Env.t)
  : JS.Err + DatadogService :=
  if blank (env ≫= Env.DD_API_KEY) then inl (JS.Error api_key_required)
  else if blank (env ≫= Env.DD_APP_KEY) then inl (JS.Error app_key_required)
  else
    let ddSite :=
      JS.the (JS.or_else (env ≫= Env.DD_SITE) (Some "datadoghq.com")) in
    inr (mkService (JS.the (env ≫= Env.DD_API_KEY))
           (JS.the (env ≫= Env.DD_APP_KEY)) ddSite).

(** The constructor of [LoggingService]: it builds its exporter. *)
Definition newLoggingService (env : Env.t) : JS.Err + DatadogService :=
  newDatadogService (Some env).

End Trim.
End Config.

Module TRPC.

(** What a procedure can throw: a [TRPCError] with its code and optional
    message, or any other error. *)
Inductive Thrown :=
| TRPCError (code : string) (message : option string)
| Uncaught (e : JS.Err).

(** A request acts on the trace store and on the state of the logging
    services. *)
Record State := mkState {
  traces : Trace.Store;
  world : Runtime.World
}.

Definition T (A : Type) : Type := State -> (Thrown + A) * State.

Definition ret {A} (a : A) : T A := fun s => (inr a, s).

Definition bind {A B} (m : T A) (k : A -> T B) : T B :=
  fun s =>
    match m s with
    | (inr a, s') => k a s'
    | (inl e, s') => (inl e, s')
    end.

Definition throw {A} (e : Thrown) : T A := fun s => (inl e, s).

(** A computation on the trace store, inside a request. *)
Definition on_traces {A} (m : Eff.M Trace.Store A) : T A :=
  fun s =>
    match m (traces s) with
    | (inr a, t) => (inr a, mkState t (world s))
    | (inl e, t) => (inl (Uncaught e), mkState t (world s))
    end.

(** A computation of the logging service, inside a request. *)
Definition on_world {A} (m : Eff.M Runtime.World A) : T A :=
  fun s =>
    match m (world s) with
    | (inr a, w) => (inr a, mkState (traces s) w)
    | (inl e, w) => (inl (Uncaught e), mkState (traces s) w)
    end.

(** A thrown error that is not the computation's own. *)
Definition raise {A} (r : JS.Err + A) : T A :=
  match r with
  | inl e => throw (Uncaught e)
  | inr a => ret a
  end.

(** The part of the tRPC context the procedures read; [sessionUser] is the
    [id] of [ctx.sessionUser], the only field of the user they use. *)
Record Context := mkContext {
  c : Ctx.t;
  env : Env.t;
  sessionUser : option string
}.

End TRPC.

#[global] Instance T_ret : MRet TRPC.T := @TRPC.ret.
#[global] Instance T_bind : MBind TRPC.T := fun A B k m => TRPC.bind m k.

Module Middleware.
Import TRPC.

(** The span the middleware starts, and the metadata it completes it
    with. *)
Definition authSpan (uuid : string) (started : Z) (ctx : Context)
  : TraceSpan.t :=
  TraceSpan.mk uuid "trpc_auth_validation" started None None
    SpanStatus.started
    (Some [("hasSessionUser",
            JS.ABool (bool_decide (is_Some (sessionUser ctx))));
           ("procedure", JS.AString "private")])
    None (Some [("trpc.auth_required", "true")]).

Definition granted (userId : string) : list (string * JS.Any) :=
  [("success", JS.ABool true); ("userId", JS.AString userId)].

Definition denied : list (string * JS.Any) :=
  [("success", JS.ABool false); ("reason", JS.AString "no_session_user")].

(** The middleware of [privateProcedure].  [uuid] and [started] are what
    [addSpan] reads, [finished] the clock of [completeSpan]; [next] is the
    rest of the procedure. *)
Definition privateProcedure {A} (uuid : string) (started finished : Z)
  (ctx : Context) (next : T A) : T A :=
  authSpan ←
    on_traces
      (Trace.addRequestSpan uuid started (c ctx) "trpc_auth_validation"
         (Some [("hasSessionUser",
                 JS.ABool (bool_decide (is_Some (sessionUser ctx))));
                ("procedure", JS.AString "private")])
         (Some [("trpc.auth_required", "true")]));
  match sessionUser ctx with
  | None =>
      match authSpan with
      | Some span =>
          on_traces
            (Trace.completeRequestSpan finished (c ctx) (TraceSpan.id span)
               (Some [("success", JS.ABool false);
                      ("reason", JS.AString "no_session_user")])
               (Some "UNAUTHORIZED: No session user found"))
      | None => mret tt
      end;;
      throw (TRPCError "UNAUTHORIZED" None)
  | Some userId =>
      match authSpan with
      | Some span =>
          on_traces
            (Trace.completeRequestSpan finished (c ctx) (TraceSpan.id span)
               (Some [("success", JS.ABool true);
                      ("userId", JS.AString userId)])
               None)
      | None => mret tt
      end;;
      next
  end.

End Middleware.

Module LoggingRouter.
Import TRPC.

Section Trim.
Variable trim : string -> string.

Definition unauthorized {A} : T A :=
  throw (TRPCError "UNAUTHORIZED" (Some "Authentication required")).

(** The handler of [getSessionStats]. *)
Definition getSessionStats (now : Z) (ctx : Context) : T SessionStats.t :=
  match sessionUser ctx with
  | None => unauthorized
  | Some sessionId =>
      raise (Config.newLoggingService trim (env ctx));;
      on_world (Logging.getSessionStats now sessionId)
  end.

(** The handler of [clearSession]; it returns [{ success: true }]. *)
Definition clearSession (now : Z) (ctx : Context) : T bool :=
  match sessionUser ctx with
  | None => unauthorized
  | Some sessionId =>
      raise (Config.newLoggingService trim (env ctx));;
      on_world (Logging.clearSession now sessionId);;
      mret true
  end.

(** The handler of [getSessionState]. *)
Definition getSessionState (now : Z) (ctx : Context) : T LoggingState.t :=
  match sessionUser ctx with
  | None => unauthorized
  | Some sessionId =>
      raise (Config.newLoggingService trim (env ctx));;
      on_world (Logging.getState now sessionId)
  end.


End Trim.
End LoggingRouter.

(** Sample requests for the concrete runs of the middleware and router. *)
Module SampleRequest.

Definition configured : Env.t := Env.mk (Some "api-key") (Some "app-key") None.

Definition unconfigured : Env.t := Env.mk None (Some "app-key") None.

(** A request of the user [user-1] whose context holds the trace id ["1"]. *)
Definition authorised : TRPC.Context :=
  TRPC.mkContext (Sample.context "1") configured (Some "user-1").

(** The same request without a session user. *)
Definition anonymous : TRPC.Context :=
  TRPC.mkContext (Sample.context "1") configured None.

(** A request without any trace id. *)
Definition untraced : TRPC.Context :=
  TRPC.mkContext (Ctx.mk None None None None) unconfigured (Some "user-1").

(** Three live traces ["0"], ["1"], ["2"] and no session yet. *)
Definition state : TRPC.State :=
  TRPC.mkState (Sample.created 3) Sample.emptyWorld.

(** The store after the trace ["1"] was removed. *)
Definition evicted : TRPC.State :=
  TRPC.mkState (Trace.timeoutCallback "1" (Sample.created 3))
    Sample.emptyWorld.

(** A [trim] that changes nothing, for strings without surrounding blanks. *)
Definition trim (s : string) : string := s.

End SampleRequest.

(* ===================================================================== *)
(** * Properties *)
(* ===================================================================== *)

(** ** The [Map] model *)

Section MapFacts.
Context {V : Type}.
Implicit Types (m : list (string * V)) (k : string) (v : V).

Lemma Map_get_delete k k' m :
  JS.Map_get k (JS.Map_delete k' m)
  = if String.eqb k' k then None else JS.Map_get k m.
Proof.
  unfold JS.Map_get, JS.Map_delete.
  induction m as [|[a x] m IH]; simpl.
  - by destruct (String.eqb k' k).
  - destruct (String.eqb_spec a k') as [->|Hne]; simpl.
    + destruct (String.eqb_spec k' k) as [->|Hk]; [done|]. exact IH.
    + destruct (String.eqb_spec a k) as [->|Hk]; simpl; [|exact IH].
      destruct (String.eqb_spec k' k) as [->|]; [congruence|done].
Qed.

Lemma Map_get_set k k' v m :
  JS.Map_get k (JS.Map_set k' v m)
  = if String.eqb k' k then Some v else JS.Map_get k m.
Proof.
  unfold JS.Map_get.
  induction m as [|[a x] m IH]; simpl.
  - by destruct (String.eqb k' k).
  - destruct (String.eqb_spec a k') as [->|Hne]; simpl.
    + by destruct (String.eqb k' k).
    + destruct (String.eqb_spec a k) as [->|Hk]; simpl; [|exact IH].
      destruct (String.eqb_spec k' k) as [->|]; [congruence|done].
Qed.

Lemma Map_get_Some_In k v m : JS.Map_get k m = Some v -> In (k, v) m.
Proof.
  unfold JS.Map_get.
  induction m as [|[a x] m IH]; simpl; [done|].
  destruct (String.eqb_spec a k) as [->|Hk]; simpl.
  - intros [= ->]. by left.
  - intros H. right. by apply IH.
Qed.

Lemma Map_get_None_keys k m :
  JS.Map_get k m = None <-> ~ In k (JS.Map_keys m).
Proof.
  unfold JS.Map_get, JS.Map_keys.
  induction m as [|[a x] m IH]; simpl; [tauto|].
  destruct (String.eqb_spec a k) as [->|Hk]; simpl.
  - split; [done|]. intros H; exfalso; apply H; by left.
  - rewrite IH. tauto.
Qed.

Lemma Map_keys_set k v m :
  JS.Map_keys (JS.Map_set k v m)
  = if JS.Map_has k m then JS.Map_keys m else (JS.Map_keys m ++ [k])%list.
Proof.
  unfold JS.Map_keys, JS.Map_has.
  induction m as [|[a x] m IH]; simpl; [done|].
  destruct (String.eqb_spec a k) as [->|Hk]; simpl; [done|].
  rewrite IH. by destruct (existsb _ m).
Qed.

Lemma Map_has_keys k m : JS.Map_has k m = true <-> In k (JS.Map_keys m).
Proof.
  unfold JS.Map_has, JS.Map_keys. rewrite existsb_exists, in_map_iff.
  split; intros [e [H1 H2]]; exists e.
  - apply String.eqb_eq in H2. done.
  - split; [done|]. by apply String.eqb_eq.
Qed.

Lemma Map_size_set_le k v m :
  JS.Map_size (JS.Map_set k v m) <= JS.Map_size m + 1.
Proof.
  unfold JS.Map_size.
  assert (length (JS.Map_set k v m) <= S (length m))%nat; [|lia].
  induction m as [|[a x] m IH]; simpl; [lia|].
  destruct (String.eqb a k); simpl; lia.
Qed.

Lemma Map_size_set_fresh k v m :
  JS.Map_get k m = None -> JS.Map_set k v m = (m ++ [(k, v)])%list.
Proof.
  unfold JS.Map_get.
  induction m as [|[a x] m IH]; simpl; [done|].
  destruct (String.eqb_spec a k) as [->|Hk]; simpl; [done|].
  intros H. by rewrite IH.
Qed.

Lemma Map_size_delete_le k m :
  JS.Map_size (JS.Map_delete k m) <= JS.Map_size m.
Proof.
  unfold JS.Map_size, JS.Map_delete.
  pose proof (List.filter_length_le
                (fun e : string * V => negb (String.eqb (fst e) k)) m).
  lia.
Qed.

Lemma Map_wf_delete k m : JS.Map_wf m -> JS.Map_wf (JS.Map_delete k m).
Proof.
  unfold JS.Map_wf, JS.Map_keys, JS.Map_delete.
  induction m as [|[a x] m IH]; simpl; [done|].
  intros H. apply NoDup_cons in H as [Hin Hnd].
  destruct (String.eqb a k); simpl; [by apply IH|].
  apply NoDup_cons. split; [|by apply IH].
  intros Hc. apply Hin.
  apply list_elem_of_In in Hc. apply list_elem_of_In.
  apply in_map_iff in Hc as [e [He1 He2]].
  apply List.filter_In in He2 as [He2 _].
  apply in_map_iff. by exists e.
Qed.

Lemma Map_wf_set k v m : JS.Map_wf m -> JS.Map_wf (JS.Map_set k v m).
Proof.
  unfold JS.Map_wf. rewrite Map_keys_set.
  destruct (JS.Map_has k m) eqn:Hh; [done|].
  intros H. apply NoDup_app. split_and!; [done| |apply NoDup_singleton].
  intros x Hx Hk. apply list_elem_of_singleton in Hk as ->.
  apply list_elem_of_In, Map_has_keys in Hx. congruence.
Qed.

Lemma Map_wf_In_eq k v v' m :
  JS.Map_wf m -> In (k, v) m -> In (k, v') m -> v = v'.
Proof.
  unfold JS.Map_wf, JS.Map_keys.
  induction m as [|[a x] m IH]; simpl; [done|].
  intros H. apply NoDup_cons in H as [Hin Hnd].
  intros [H1|H1] [H2|H2].
  - congruence.
  - inversion H1; subst. exfalso. apply Hin, list_elem_of_In.
    apply in_map_iff. by exists (k, v').
  - inversion H2; subst. exfalso. apply Hin, list_elem_of_In.
    apply in_map_iff. by exists (k, v).
  - by apply IH.
Qed.

End MapFacts.

(** ** The stable sort *)

Section SortFacts.
Context {A : Type} (key : A -> Z).

#[local] Abbreviation key_le := (JS.key_le key).

Lemma sort_insert_perm x (l : list A) :
  Permutation (JS.sort_insert key x l) (x :: l).
Proof.
  induction l as [|y l IH]; simpl; [done|].
  destruct (Z.leb (key y) (key x)); [|done].
  rewrite IH. apply perm_swap.
Qed.


Lemma sort_insert_sorted x (l : list A) :
  StronglySorted key_le l -> StronglySorted key_le (JS.sort_insert key x l).
Proof.
  induction l as [|y l IH]; simpl; intros Hs.
  - repeat constructor.
  - apply StronglySorted_inv in Hs as [Hl Hy].
    destruct (Z.leb_spec (key y) (key x)) as [Hle|Hgt].
    + constructor; [by apply IH|].
      rewrite (Forall_forall (key_le y)). intros z Hz.
      apply list_elem_of_In in Hz.
      apply (Permutation_in _ (sort_insert_perm x l)) in Hz as [<-|Hz];
        [done|].
      rewrite List.Forall_forall in Hy. by apply Hy.
    + constructor; [by constructor|].
      constructor; [unfold key_le; lia|].
      rewrite List.Forall_forall in Hy. rewrite List.Forall_forall.
      intros z Hz. specialize (Hy z Hz). unfold key_le in *. lia.
Qed.

Lemma sort_fold_perm (l acc : list A) :
  Permutation (fold_left (fun acc x => JS.sort_insert key x acc) l acc)
              (acc ++ l)%list.
Proof.
  revert acc. induction l as [|x l IH]; intros acc; simpl.
  - by rewrite app_nil_r.
  - rewrite IH, sort_insert_perm. simpl. apply Permutation_middle.
Qed.

Lemma sort_fold_sorted (l acc : list A) :
  StronglySorted key_le acc ->
  StronglySorted key_le
    (fold_left (fun acc x => JS.sort_insert key x acc) l acc).
Proof.
  revert acc. induction l as [|x l IH]; intros acc Hs; simpl; [done|].
  by apply IH, sort_insert_sorted.
Qed.

Lemma sort_perm (l : list A) : Permutation (JS.sort key l) l.
Proof. unfold JS.sort. by rewrite sort_fold_perm. Qed.

Lemma sort_sorted (l : list A) : StronglySorted key_le (JS.sort key l).
Proof. apply sort_fold_sorted. constructor. Qed.

Lemma skipn_In (l : list A) (n : nat) x : In x (skipn n l) -> In x l.
Proof.
  revert n. induction l as [|a l IH]; intros [|n]; simpl; try done.
  intros H. right. by apply (IH n).
Qed.

Lemma firstn_In (l : list A) (n : nat) x : In x (firstn n l) -> In x l.
Proof.
  revert n. induction l as [|a l IH]; intros [|n]; simpl; try done.
  intros [->|H]; [by left|]. right. by apply (IH n).
Qed.

(** In a sorted list an element of a prefix is not above an element of the
    rest. *)
Lemma sorted_prefix_le (l : list A) (n : nat) x y :
  StronglySorted key_le l ->
  In x (firstn n l) -> In y (skipn n l) -> key x <= key y.
Proof.
  revert n. induction l as [|a l IH]; intros n Hs Hx Hy.
  - by destruct n.
  - destruct n as [|n]; simpl in *; [done|].
    apply StronglySorted_inv in Hs as [Hl Ha].
    destruct Hx as [->|Hx]; [|by apply (IH n)].
    rewrite List.Forall_forall in Ha. apply Ha.
    by apply (skipn_In l n).
Qed.

End SortFacts.

(** ** The two passes of [performCleanup] *)

Section CleanupFacts.
Import Trace.
Implicit Types (traces : Store) (ids : list string).

Lemma filter_filter {A} (f g : A -> bool) (l : list A) :
  List.filter f (List.filter g l) = List.filter (fun x => g x && f x) l.
Proof.
  induction l as [|x l IH]; simpl; [done|].
  destruct (g x); simpl; [destruct (f x)|]; by rewrite IH.
Qed.

Lemma filter_sublist {A} (f : A -> bool) (l : list A) :
  sublist (List.filter f l) l.
Proof.
  induction l as [|x l IH]; simpl; [constructor|].
  destruct (f x); by constructor.
Qed.

Lemma filter_perm_length {A} (f : A -> bool) (l l' : list A) :
  Permutation l l' -> length (List.filter f l) = length (List.filter f l').
Proof.
  induction 1 as [|x l l' _ IH|x y l|l l' l'' _ IH1 _ IH2]; simpl.
  - done.
  - destruct (f x); simpl; by rewrite IH.
  - by destruct (f x), (f y).
  - by rewrite IH1.
Qed.

Lemma filter_none {A} (f : A -> bool) (l : list A) :
  (forall x, In x l -> f x = false) -> List.filter f l = [].
Proof.
  induction l as [|x l IH]; simpl; intros H; [done|].
  rewrite (H x) by (by left). apply IH. intros y Hy. apply H. by right.
Qed.

Lemma filter_all {A} (f : A -> bool) (l : list A) :
  (forall x, In x l -> f x = true) -> List.filter f l = l.
Proof.
  induction l as [|x l IH]; simpl; intros H; [done|].
  rewrite (H x) by (by left). f_equal. apply IH. intros y Hy. apply H.
  by right.
Qed.

Lemma includes_In ids k : JS.includes ids k = true <-> In k ids.
Proof.
  unfold JS.includes. rewrite existsb_exists. split.
  - intros [x [Hx Heq]]. apply String.eqb_eq in Heq. by subst.
  - intros H. exists k. split; [done|]. apply String.eqb_refl.
Qed.

(** The deletions of a list of ids amount to one filter. *)
Lemma delete_each_filter ids traces :
  delete_each ids traces
  = List.filter (fun e => negb (JS.includes ids (fst e))) traces.
Proof.
  unfold delete_each. revert traces.
  induction ids as [|id ids IH]; intros traces; simpl.
  - symmetry. by apply filter_all.
  - rewrite IH. unfold JS.Map_delete. rewrite filter_filter.
    apply List.filter_ext. intros [k v]; simpl.
    rewrite (String.eqb_sym k id). by rewrite negb_orb.
Qed.

Lemma Map_get_delete_each ids k traces :
  JS.Map_get k (delete_each ids traces)
  = if JS.includes ids k then None else JS.Map_get k traces.
Proof.
  unfold delete_each. revert traces.
  induction ids as [|id ids IH]; intros traces; simpl; [done|].
  rewrite IH, Map_get_delete, (String.eqb_sym k id).
  destruct (String.eqb id k); simpl; by destruct (JS.includes ids k).
Qed.

Lemma Map_size_delete_each_le ids traces :
  JS.Map_size (delete_each ids traces) <= JS.Map_size traces.
Proof.
  rewrite delete_each_filter. unfold JS.Map_size.
  pose proof (List.filter_length_le
    (fun e : string * RequestTrace.t => negb (JS.includes ids (fst e)))
    traces).
  lia.
Qed.

Lemma Map_wf_delete_each ids traces :
  JS.Map_wf traces -> JS.Map_wf (delete_each ids traces).
Proof.
  unfold delete_each. revert traces.
  induction ids as [|id ids IH]; intros traces H; simpl; [done|].
  by apply IH, Map_wf_delete.
Qed.

(** A stale trace is among the ids collected by the first loop. *)
Lemma stale_collected now traces e :
  In e traces -> TRACE_TTL_MS < now - start_of e ->
  In (fst e) (tracesToDelete now traces).
Proof.
  intros Hin Hage. unfold tracesToDelete. apply in_map.
  apply List.filter_In. split; [done|]. by apply Z.ltb_lt.
Qed.

(** With distinct keys the first pass keeps exactly the traces whose age is
    at most the TTL. *)
Lemma removeStale_filter now traces :
  JS.Map_wf traces ->
  removeStale now traces
  = List.filter (fun e => negb (Z.ltb TRACE_TTL_MS (now - start_of e))) traces.
Proof.
  intros Hwf. unfold removeStale. rewrite delete_each_filter.
  apply filter_ext_in. intros [k v] Hin. simpl. f_equal.
  apply eq_true_iff_eq. rewrite includes_In. unfold tracesToDelete.
  rewrite in_map_iff. split.
  - intros [[k' v'] [Hk Hf]]. simpl in Hk. subst k'.
    apply List.filter_In in Hf as [Hin' Hage].
    by rewrite (Map_wf_In_eq k v v' traces Hwf Hin Hin').
  - intros Hage. exists (k, v). split; [done|]. by apply List.filter_In.
Qed.

Lemma removeStale_size_le now traces :
  JS.Map_size (removeStale now traces) <= JS.Map_size traces.
Proof. apply Map_size_delete_each_le. Qed.

Lemma removeStale_wf now traces :
  JS.Map_wf traces -> JS.Map_wf (removeStale now traces).
Proof. apply Map_wf_delete_each. Qed.

Lemma evictOldest_wf traces :
  JS.Map_wf traces -> JS.Map_wf (evictOldest traces).
Proof.
  intros H. unfold evictOldest.
  destruct (Z.ltb MAX_TRACES (JS.Map_size traces)); [|done].
  by apply Map_wf_delete_each.
Qed.

Lemma performCleanup_wf now traces :
  JS.Map_wf traces -> JS.Map_wf (performCleanup now traces).
Proof. intros H. by apply evictOldest_wf, removeStale_wf. Qed.

(** The capacity pass never leaves more than [MAX_TRACES] traces. *)
Lemma evictOldest_size_le traces :
  JS.Map_size (evictOldest traces) <= MAX_TRACES.
Proof.
  unfold evictOldest.
  destruct (Z.ltb_spec MAX_TRACES (JS.Map_size traces)) as [Hgt|Hle]; [|done].
  rewrite delete_each_filter. unfold JS.Map_size in *.
  set (n := Z.to_nat (Z.of_nat (length traces) - MAX_TRACES)).
  set (sorted := JS.sort start_of traces).
  set (keep := fun e : string * RequestTrace.t =>
                 negb (JS.includes (map fst (firstn n sorted)) (fst e))).
  rewrite <- (filter_perm_length keep _ _ (sort_perm start_of traces)).
  fold sorted. rewrite <- (firstn_skipn n sorted) at 1.
  rewrite List.filter_app, length_app.
  rewrite (filter_none keep (firstn n sorted)); cycle 1.
  { intros e He. unfold keep. apply negb_false_iff, includes_In.
    by apply in_map. }
  pose proof (List.filter_length_le keep (skipn n sorted)) as Hlen.
  rewrite length_skipn in Hlen.
  assert (length sorted = length traces) as Hs
    by apply Permutation_length, sort_perm.
  assert (Z.of_nat n = Z.of_nat (length traces) - MAX_TRACES) as Hn
    by (unfold n; lia).
  simpl. unfold MAX_TRACES in *. lia.
Qed.

Lemma evictOldest_size_mono traces :
  JS.Map_size (evictOldest traces) <= JS.Map_size traces.
Proof.
  unfold evictOldest.
  destruct (Z.ltb MAX_TRACES (JS.Map_size traces)); [|lia].
  apply Map_size_delete_each_le.
Qed.

Lemma performCleanup_size_le now traces :
  JS.Map_size (performCleanup now traces) <= MAX_TRACES.
Proof. apply evictOldest_size_le. Qed.

Lemma performCleanup_size_mono now traces :
  JS.Map_size (performCleanup now traces) <= JS.Map_size traces.
Proof.
  unfold performCleanup.
  pose proof (evictOldest_size_mono (removeStale now traces)).
  pose proof (removeStale_size_le now traces). lia.
Qed.

End CleanupFacts.

(** ** Unfolding the computations *)

Ltac eff_unfold :=
  unfold Eff.final, Eff.outcome, mbind, mret, M_bind, M_ret, Eff.bind,
    Eff.ret, Eff.get, Eff.put, Eff.throw, Eff.try_catch.

Section StoreFacts.
Import Trace.
Implicit Types (traces : Store).

Lemma createTrace_final now traceId metadata traces :
  Eff.final (createTrace now traceId metadata) traces
  = match JS.Map_get traceId traces with
    | Some _ => traces
    | None =>
        JS.Map_set traceId (RequestTrace.mk traceId now None None [] metadata)
          (if nearCapacity traces then performCleanup now traces else traces)
    end.
Proof.
  unfold createTrace. eff_unfold.
  by destruct (JS.Map_get traceId traces).
Qed.

Lemma nearCapacity_spec traces :
  nearCapacity traces = true <-> 9000 <= JS.Map_size traces.
Proof.
  unfold nearCapacity, Qle_bool, MAX_TRACES. simpl.
  rewrite Z.leb_le. lia.
Qed.

(** [set] on a present key keeps the size. *)
Lemma Map_size_set_present {V} k (v v' : V) (m : list (string * V)) :
  JS.Map_get k m = Some v' -> JS.Map_size (JS.Map_set k v m) = JS.Map_size m.
Proof.
  unfold JS.Map_get, JS.Map_size.
  induction m as [|[a x] m IH]; simpl; [done|].
  destruct (String.eqb_spec a k) as [->|Hk]; simpl; [done|].
  intros H. specialize (IH H). lia.
Qed.

Lemma addSpan_final uuid now traceId span traces :
  Eff.final (addSpan uuid now traceId span) traces
  = match JS.Map_get traceId traces with
    | None => traces
    | Some trace =>
        JS.Map_set traceId
          (with_spans trace
             (RequestTrace.spans trace
                ++ [TraceSpan.mk uuid (SpanSpec.name span) now
                      (SpanSpec.endTime span) (SpanSpec.duration span)
                      SpanStatus.started (SpanSpec.metadata span)
                      (SpanSpec.error span) (SpanSpec.tags span)])%list)
          traces
    end.
Proof.
  unfold addSpan. eff_unfold.
  by destruct (JS.Map_get traceId traces).
Qed.

Lemma completeSpan_final now traceId spanId metadata error traces :
  Eff.final (completeSpan now traceId spanId metadata error) traces
  = match JS.Map_get traceId traces with
    | None => traces
    | Some trace =>
        match List.find (fun s => String.eqb (TraceSpan.id s) spanId)
                        (RequestTrace.spans trace) with
        | None => traces
        | Some _ =>
            JS.Map_set traceId
              (with_spans trace
                 (update_found spanId (completed_span now metadata error)
                    (RequestTrace.spans trace)))
              traces
        end
    end.
Proof.
  unfold completeSpan. eff_unfold.
  destruct (JS.Map_get traceId traces) as [trace|]; [|done].
  by destruct (List.find _ (RequestTrace.spans trace)).
Qed.

Lemma completeTrace_final now traceId traces :
  Eff.final (completeTrace now traceId) traces
  = match JS.Map_get traceId traces with
    | None => traces
    | Some trace =>
        JS.Map_set traceId
          (RequestTrace.mk (RequestTrace.traceId trace)
             (RequestTrace.startTime trace) (Some now)
             (Some (now - RequestTrace.startTime trace))
             (RequestTrace.spans trace) (RequestTrace.metadata trace))
          traces
    end.
Proof.
  unfold completeTrace. eff_unfold.
  by destruct (JS.Map_get traceId traces).
Qed.

Lemma addRequestSpan_final uuid now c name metadata tags traces :
  Eff.final (addRequestSpan uuid now c name metadata tags) traces
  = if negb (JS.truthy (getTraceId c)) then traces
    else Eff.final
           (addSpan uuid now (JS.the (getTraceId c))
              (SpanSpec.mk name None None metadata None tags)) traces.
Proof.
  unfold addRequestSpan, startSpan.
  destruct (negb (JS.truthy (getTraceId c))); [done|].
  unfold addSpan. eff_unfold.
  by destruct (JS.Map_get _ traces).
Qed.

Lemma completeRequestSpan_final now c spanId metadata error traces :
  Eff.final (completeRequestSpan now c spanId metadata error) traces
  = if negb (JS.truthy (getTraceId c)) then traces
    else Eff.final
           (completeSpan now (JS.the (getTraceId c)) spanId metadata error)
           traces.
Proof.
  unfold completeRequestSpan.
  by destruct (negb (JS.truthy (getTraceId c))).
Qed.

End StoreFacts.

(** ** Runs of the store: size and key invariants *)

Section RunFacts.
Import Trace.
Implicit Types (traces : Store) (op : Op).

Lemma step_size_bound traces op :
  JS.Map_size traces <= MAX_TRACES + 1 ->
  JS.Map_size (step traces op) <= MAX_TRACES + 1.
Proof.
  intros Hb. destruct op; simpl.
  - rewrite createTrace_final.
    destruct (JS.Map_get traceId traces); [done|].
    etransitivity; [apply Map_size_set_le|].
    destruct (nearCapacity traces) eqn:Hn.
    + pose proof (performCleanup_size_le now traces). lia.
    + assert (~ 9000 <= JS.Map_size traces) as Hlt
        by (rewrite <- nearCapacity_spec; congruence).
      unfold MAX_TRACES. lia.
  - rewrite addSpan_final.
    destruct (JS.Map_get traceId traces) eqn:Hg; [|done].
    by rewrite (Map_size_set_present _ _ _ _ Hg).
  - rewrite completeSpan_final.
    destruct (JS.Map_get traceId traces) as [trace|] eqn:Hg; [|done].
    destruct (List.find _ (RequestTrace.spans trace)); [|done].
    by rewrite (Map_size_set_present _ _ _ _ Hg).
  - rewrite completeTrace_final.
    destruct (JS.Map_get traceId traces) eqn:Hg; [|done].
    by rewrite (Map_size_set_present _ _ _ _ Hg).
  - rewrite addRequestSpan_final.
    destruct (negb (JS.truthy (getTraceId c))); [done|].
    rewrite addSpan_final.
    destruct (JS.Map_get _ traces) eqn:Hg; [|done].
    by rewrite (Map_size_set_present _ _ _ _ Hg).
  - rewrite completeRequestSpan_final.
    destruct (negb (JS.truthy (getTraceId c))); [done|].
    rewrite completeSpan_final.
    destruct (JS.Map_get _ traces) as [trace|] eqn:Hg; [|done].
    destruct (List.find _ (RequestTrace.spans trace)); [|done].
    by rewrite (Map_size_set_present _ _ _ _ Hg).
  - pose proof (performCleanup_size_le now traces). lia.
  - unfold timeoutCallback.
    pose proof (Map_size_delete_le traceId traces). lia.
  - unfold destroy, JS.Map_size, MAX_TRACES. simpl. lia.
Qed.

Lemma run_size_bound ops traces :
  JS.Map_size traces <= MAX_TRACES + 1 ->
  JS.Map_size (run ops traces) <= MAX_TRACES + 1.
Proof.
  unfold run. revert traces.
  induction ops as [|op ops IH]; intros traces Hb; simpl; [done|].
  by apply IH, step_size_bound.
Qed.

Lemma step_wf traces op : JS.Map_wf traces -> JS.Map_wf (step traces op).
Proof.
  intros Hwf. destruct op; simpl.
  - rewrite createTrace_final.
    destruct (JS.Map_get traceId traces); [done|].
    apply Map_wf_set.
    destruct (nearCapacity traces); [by apply performCleanup_wf|done].
  - rewrite addSpan_final.
    destruct (JS.Map_get traceId traces); [by apply Map_wf_set|done].
  - rewrite completeSpan_final.
    destruct (JS.Map_get traceId traces) as [trace|]; [|done].
    destruct (List.find _ (RequestTrace.spans trace));
      [by apply Map_wf_set|done].
  - rewrite completeTrace_final.
    destruct (JS.Map_get traceId traces); [by apply Map_wf_set|done].
  - rewrite addRequestSpan_final.
    destruct (negb (JS.truthy (getTraceId c))); [done|].
    rewrite addSpan_final.
    destruct (JS.Map_get _ traces); [by apply Map_wf_set|done].
  - rewrite completeRequestSpan_final.
    destruct (negb (JS.truthy (getTraceId c))); [done|].
    rewrite completeSpan_final.
    destruct (JS.Map_get _ traces) as [trace|]; [|done].
    destruct (List.find _ (RequestTrace.spans trace));
      [by apply Map_wf_set|done].
  - by apply performCleanup_wf.
  - by apply Map_wf_delete.
  - apply NoDup_nil_2.
Qed.

(** Every store reached from the empty one has distinct keys. *)
Lemma run_wf ops traces : JS.Map_wf traces -> JS.Map_wf (run ops traces).
Proof.
  unfold run. revert traces.
  induction ops as [|op ops IH]; intros traces Hwf; simpl; [done|].
  by apply IH, step_wf.
Qed.

(** *** The sample run of [n] creations *)

Lemma created_S n :
  Sample.created (S n)
  = (Sample.created n ++ [(pretty n, Sample.newTrace (pretty n) 0)])%list.
Proof. unfold Sample.created. by rewrite seq_S, map_app. Qed.

Lemma creates_S n :
  Sample.creates (S n)
  = (Sample.creates n ++ [CreateTrace 0 (pretty n) Sample.metadata])%list.
Proof. unfold Sample.creates. by rewrite seq_S, map_app. Qed.

Lemma created_size n : JS.Map_size (Sample.created n) = Z.of_nat n.
Proof.
  unfold JS.Map_size, Sample.created. by rewrite length_map, length_seq.
Qed.

Lemma created_keys n : JS.Map_keys (Sample.created n) = map pretty (seq 0 n).
Proof.
  unfold JS.Map_keys, Sample.created. rewrite map_map. by apply map_ext.
Qed.

Lemma created_wf n : JS.Map_wf (Sample.created n).
Proof.
  unfold JS.Map_wf. rewrite created_keys.
  apply (NoDup_fmap_2 pretty). apply NoDup_ListNoDup, seq_NoDup.
Qed.

Lemma created_fresh n : JS.Map_get (pretty n) (Sample.created n) = None.
Proof.
  apply Map_get_None_keys. rewrite created_keys, in_map_iff.
  intros [i [Hi Hin]]. apply (inj pretty) in Hi. subst i.
  apply in_seq in Hin. lia.
Qed.

Lemma created_start n e : In e (Sample.created n) -> start_of e = 0.
Proof.
  unfold Sample.created. rewrite in_map_iff. by intros [i [<- _]].
Qed.

(** Nothing is stale or in excess in the sample store at time 0. *)
Lemma created_cleanup n :
  Z.of_nat n <= MAX_TRACES ->
  performCleanup 0 (Sample.created n) = Sample.created n.
Proof.
  intros Hn. unfold performCleanup.
  assert (removeStale 0 (Sample.created n) = Sample.created n) as ->.
  { rewrite removeStale_filter by apply created_wf.
    apply filter_all. intros e He. by rewrite (created_start n e He). }
  unfold evictOldest. rewrite created_size.
  by destruct (Z.ltb_spec MAX_TRACES (Z.of_nat n)); [lia|].
Qed.

Lemma step_created n :
  Z.of_nat n <= MAX_TRACES ->
  step (Sample.created n) (CreateTrace 0 (pretty n) Sample.metadata)
  = Sample.created (S n).
Proof.
  intros Hn. simpl. rewrite createTrace_final, created_fresh.
  assert ((if nearCapacity (Sample.created n)
           then performCleanup 0 (Sample.created n)
           else Sample.created n) = Sample.created n) as ->.
  { destruct (nearCapacity _); [by apply created_cleanup|done]. }
  rewrite Map_size_set_fresh by apply created_fresh.
  by rewrite created_S.
Qed.

Lemma run_creates n :
  Z.of_nat n <= MAX_TRACES + 1 ->
  run (Sample.creates n) [] = Sample.created n.
Proof.
  induction n as [|n IH]; intros Hn; [done|].
  rewrite creates_S. unfold run in *. rewrite fold_left_app. simpl.
  rewrite IH by lia. apply step_created. lia.
Qed.

End RunFacts.

(** Claim C9.  From the empty store, whatever operations and callbacks
    run, the store holds at most [MAX_TRACES + 1] = 10001 traces right after
    a call of [createTrace]; and that size is reached, by 10001 creations
    of distinct ids at one instant. *)
Theorem C9_createTrace_bound :
  (forall ops now traceId metadata,
      JS.Map_size
        (Eff.final (Trace.createTrace now traceId metadata) (Trace.run ops []))
      <= Trace.MAX_TRACES + 1)
  /\ (exists ops now traceId metadata,
        JS.Map_size
          (Eff.final (Trace.createTrace now traceId metadata)
             (Trace.run ops []))
        = Trace.MAX_TRACES + 1).
Proof.
  split.
  - intros ops now traceId metadata.
    apply (step_size_bound _ (Trace.CreateTrace now traceId metadata)).
    apply run_size_bound. unfold JS.Map_size, Trace.MAX_TRACES. simpl. lia.
  - set (n := Z.to_nat Trace.MAX_TRACES).
    assert (Z.of_nat n = Trace.MAX_TRACES) as Hn
      by (unfold n, Trace.MAX_TRACES; lia).
    exists (Sample.creates n), 0, (pretty n), Sample.metadata.
    rewrite run_creates by lia.
    change (Eff.final _ _)
      with (Trace.step (Sample.created n)
              (Trace.CreateTrace 0 (pretty n) Sample.metadata)).
    rewrite step_created by lia.
    rewrite created_size. lia.
Qed.

(** ** The TTL pass *)

(** Claim C4, a concrete run.  A trace whose age is exactly the TTL (started at
    0, cleanup at 300000) is still in the store after [performCleanup]. *)
Lemma C4_age_equal_to_ttl_survives :
  let traces := [("t1", Sample.newTrace "t1" 0)] in
  let now := 300000 in
  now - RequestTrace.startTime (Sample.newTrace "t1" 0) >= Trace.TRACE_TTL_MS
  /\ Trace.getTrace "t1" (Trace.performCleanup now traces)
     = Some (Sample.newTrace "t1" 0).
Proof. split; [vm_compute; discriminate|reflexivity]. Qed.

(** Claim C4, as the code has it.  After [performCleanup], every trace whose age is strictly
    greater than the TTL is absent from the store, completed or not. *)
Theorem C4_stale_traces_removed (now : Z) (traces : Trace.Store)
  (traceId : string) (trace : RequestTrace.t) :
  In (traceId, trace) traces ->
  Trace.TRACE_TTL_MS < now - RequestTrace.startTime trace ->
  Trace.getTrace traceId (Trace.performCleanup now traces) = None.
Proof.
  intros Hin Hage.
  assert (JS.Map_get traceId (Trace.removeStale now traces) = None) as Hgone.
  { unfold Trace.removeStale. rewrite Map_get_delete_each.
    pose proof (stale_collected now traces (traceId, trace) Hin Hage) as Hc.
    apply includes_In in Hc. simpl in Hc. by rewrite Hc. }
  unfold Trace.getTrace, Trace.performCleanup, Trace.evictOldest.
  destruct (Z.ltb _ _); [|done].
  rewrite Map_get_delete_each, Hgone. by destruct (JS.includes _ _).
Qed.

Lemma C4_stale_traces_removed_witness :
  Trace.getTrace "t1"
    (Trace.performCleanup 300001
       [("t0", Sample.newTrace "t0" 200000); ("t1", Sample.newTrace "t1" 0)])
  = None.
Proof.
  apply (C4_stale_traces_removed 300001 _ "t1" (Sample.newTrace "t1" 0)).
  - simpl. right. left. reflexivity.
  - vm_compute. reflexivity.
Defined.

(** ** The capacity pass *)

Section Eviction.
Import Trace.
Implicit Types (traces : Store).

(** With distinct keys and more than [MAX_TRACES] traces, the capacity pass
    keeps exactly the traces that follow the first [size - MAX_TRACES] in
    the order of start timestamps. *)
Lemma evictOldest_kept traces e :
  JS.Map_wf traces -> MAX_TRACES < JS.Map_size traces ->
  In e (evictOldest traces)
  <-> In e (skipn (Z.to_nat (JS.Map_size traces - MAX_TRACES))
                  (JS.sort start_of traces)).
Proof.
  intros Hwf Hgt. unfold evictOldest.
  destruct (Z.ltb_spec MAX_TRACES (JS.Map_size traces)); [|lia].
  rewrite delete_each_filter, List.filter_In.
  set (n := Z.to_nat (JS.Map_size traces - MAX_TRACES)).
  set (sorted := JS.sort start_of traces).
  assert (Permutation sorted traces) as Hperm by apply sort_perm.
  assert (NoDup (map fst (firstn n sorted) ++ map fst (skipn n sorted))%list)
    as Hnd.
  { rewrite <- map_app, firstn_skipn.
    by rewrite (Permutation_map fst Hperm). }
  apply NoDup_app in Hnd as (_ & Hdisj & _).
  rewrite negb_true_iff. split.
  - intros [Hin Hkey].
    apply (Permutation_in _ (Permutation_sym Hperm)) in Hin.
    rewrite <- (firstn_skipn n sorted) in Hin.
    apply in_app_or in Hin as [Hin|Hin]; [|done].
    exfalso. apply not_true_iff_false in Hkey. apply Hkey.
    apply includes_In. by apply in_map.
  - intros Hin. split.
    + apply (Permutation_in _ Hperm). by apply (skipn_In sorted n).
    + apply not_true_iff_false. rewrite includes_In. intros Hk.
      apply (Hdisj (fst e)); apply list_elem_of_In; [done|by apply in_map].
Qed.

Lemma evictOldest_size traces :
  JS.Map_wf traces -> MAX_TRACES < JS.Map_size traces ->
  JS.Map_size (evictOldest traces) = MAX_TRACES.
Proof.
  intros Hwf Hgt.
  assert (evictOldest traces
          = List.filter
              (fun e => negb (JS.includes
                 (map fst (firstn (Z.to_nat (JS.Map_size traces - MAX_TRACES))
                                  (JS.sort start_of traces))) (fst e)))
              traces) as Heq.
  { unfold evictOldest.
    destruct (Z.ltb_spec MAX_TRACES (JS.Map_size traces)); [|lia].
    apply delete_each_filter. }
  set (n := Z.to_nat (JS.Map_size traces - MAX_TRACES)) in *.
  set (sorted := JS.sort start_of traces) in *.
  set (keep := fun e : string * RequestTrace.t =>
                 negb (JS.includes (map fst (firstn n sorted)) (fst e))) in *.
  assert (Permutation sorted traces) as Hperm by apply sort_perm.
  assert (List.filter keep (skipn n sorted) = skipn n sorted) as Hall.
  { apply filter_all. intros e He.
    apply (evictOldest_kept traces e Hwf Hgt) in He.
    rewrite Heq in He. by apply List.filter_In in He as [_ He]. }
  assert (List.filter keep (firstn n sorted) = []) as Hnone.
  { apply filter_none. intros e He. unfold keep.
    apply negb_false_iff, includes_In. by apply in_map. }
  unfold JS.Map_size in *. rewrite Heq.
  rewrite <- (filter_perm_length keep _ _ Hperm).
  rewrite <- (firstn_skipn n sorted) at 1.
  rewrite List.filter_app, Hnone, Hall. simpl.
  rewrite length_skipn, (Permutation_length Hperm).
  unfold n, MAX_TRACES in *. lia.
Qed.

Lemma evictOldest_sublist traces : sublist (evictOldest traces) traces.
Proof.
  unfold evictOldest.
  destruct (Z.ltb MAX_TRACES (JS.Map_size traces)); [|done].
  rewrite delete_each_filter. apply filter_sublist.
Qed.

Lemma removeStale_sublist now traces : sublist (removeStale now traces) traces.
Proof. unfold removeStale. rewrite delete_each_filter. apply filter_sublist. Qed.

(** After deleting a list of ids, the entries that are gone are those whose
    key is in the list. *)
Lemma removed_delete_each ids traces :
  removed traces (delete_each ids traces)
  = List.filter (fun e => JS.includes ids (fst e)) traces.
Proof.
  unfold removed. apply filter_ext_in. intros e He.
  rewrite delete_each_filter.
  destruct (JS.includes ids (fst e)) eqn:Hinc.
  - apply negb_true_iff, not_true_iff_false. unfold JS.Map_has.
    rewrite existsb_exists. intros [e' [He' Heq]].
    apply String.eqb_eq in Heq. apply List.filter_In in He' as [_ Hk].
    rewrite Heq, Hinc in Hk. done.
  - apply negb_false_iff. unfold JS.Map_has. apply existsb_exists.
    exists e. split; [|apply String.eqb_refl].
    apply List.filter_In. split; [done|]. by rewrite Hinc.
Qed.

(** The capacity pass removes exactly the excess. *)
Lemma evictOldest_removed_size traces :
  JS.Map_wf traces -> MAX_TRACES < JS.Map_size traces ->
  JS.Map_size (removed traces (evictOldest traces))
  = JS.Map_size traces - MAX_TRACES.
Proof.
  intros Hwf Hgt. pose proof (evictOldest_size traces Hwf Hgt) as Hsize.
  unfold evictOldest in *.
  destruct (Z.ltb_spec MAX_TRACES (JS.Map_size traces)); [|lia].
  rewrite removed_delete_each. rewrite delete_each_filter in Hsize.
  unfold JS.Map_size in *.
  match goal with
  | |- context [List.filter ?f traces] =>
      pose proof (List.filter_length f traces) as Hlen
  end.
  simpl in Hlen. lia.
Qed.

End Eviction.

(** Claim C5.  When the store, whose keys are distinct, still holds
    more than [MAX_TRACES] traces after the TTL pass, [performCleanup]
    leaves exactly [MAX_TRACES] of them, in their order, and the number of
    live traces it removed is the excess; the kept traces are those that
    follow the first excess ones in the order of start timestamps, so no
    removed trace started later than a trace that is kept. *)
Theorem C5_oldest_first_eviction (now : Z) (traces : Trace.Store) :
  JS.Map_wf traces ->
  Trace.MAX_TRACES < JS.Map_size (Trace.removeStale now traces) ->
  let live := Trace.removeStale now traces in
  let kept := Trace.performCleanup now traces in
  let excess := JS.Map_size live - Trace.MAX_TRACES in
  JS.Map_size kept = Trace.MAX_TRACES
  /\ JS.Map_size (Trace.removed live kept) = excess
  /\ sublist kept live
  /\ (forall e,
         In e kept
         <-> In e (skipn (Z.to_nat excess) (JS.sort Trace.start_of live)))
  /\ (forall gone survivor,
         In gone traces -> ~ In gone kept -> In survivor kept ->
         Trace.start_of gone <= Trace.start_of survivor).
Proof.
  intros Hwf Hgt live kept excess.
  pose proof (removeStale_wf now traces Hwf) as Hwf'.
  split_and!.
  - by apply evictOldest_size.
  - by apply evictOldest_removed_size.
  - apply evictOldest_sublist.
  - intros e. by apply evictOldest_kept.
  - intros r x Hr Hnr Hx.
    unfold kept, Trace.performCleanup in Hnr, Hx.
    rewrite (evictOldest_kept _ r Hwf' Hgt) in Hnr.
    rewrite (evictOldest_kept _ x Hwf' Hgt) in Hx.
    set (n := Z.to_nat (JS.Map_size (Trace.removeStale now traces)
                        - Trace.MAX_TRACES)) in *.
    set (sorted := JS.sort Trace.start_of (Trace.removeStale now traces)) in *.
    assert (Permutation sorted (Trace.removeStale now traces)) as Hperm
      by apply sort_perm.
    assert (In x (Trace.removeStale now traces)) as Hxl.
    { apply (Permutation_in _ Hperm). by apply (skipn_In sorted n). }
    rewrite (removeStale_filter now traces Hwf) in Hxl.
    apply List.filter_In in Hxl as [_ Hxage].
    apply negb_true_iff, Z.ltb_ge in Hxage.
    destruct (Z.ltb_spec Trace.TRACE_TTL_MS (now - Trace.start_of r))
      as [Hstale|Hfresh]; [lia|].
    assert (In r sorted) as Hrs.
    { apply (Permutation_in _ (Permutation_sym Hperm)).
      rewrite (removeStale_filter now traces Hwf). apply List.filter_In.
      split; [done|]. by apply negb_true_iff, Z.ltb_ge. }
    rewrite <- (firstn_skipn n sorted) in Hrs.
    apply in_app_or in Hrs as [Hrs|Hrs]; [|done].
    apply (sorted_prefix_le Trace.start_of sorted n r x);
      [apply sort_sorted|done|done].
Qed.

Lemma C5_oldest_first_eviction_witness :
  Trace.MAX_TRACES
  < JS.Map_size (Trace.removeStale 0 (Sample.created (Z.to_nat 10001)))
  /\ JS.Map_size
       (Trace.performCleanup 0 (Sample.created (Z.to_nat 10001)))
     = Trace.MAX_TRACES.
Proof.
  assert (Trace.MAX_TRACES
          < JS.Map_size
              (Trace.removeStale 0 (Sample.created (Z.to_nat 10001))))
    as Hover by (vm_compute; reflexivity).
  split; [exact Hover|].
  exact (proj1 (C5_oldest_first_eviction 0
                  (Sample.created (Z.to_nat 10001))
                  (created_wf (Z.to_nat 10001)) Hover)).
Defined.

(** ** Span statuses along a run *)

Section StatusFacts.
Import Trace.
Implicit Types (traces : Store) (spans : list TraceSpan.t).

Lemma evolves_refl spans : evolves spans spans.
Proof. intros i span H. by exists span. Qed.

Lemma evolves_push spans span : evolves spans (spans ++ [span])%list.
Proof.
  intros i s H. exists s. split; [|done].
  rewrite nth_error_app1; [done|]. apply nth_error_Some. congruence.
Qed.

Lemma completed_span_terminal now metadata error span :
  terminal (TraceSpan.status (completed_span now metadata error span)) = true.
Proof. unfold completed_span. simpl. by destruct (JS.truthy error). Qed.

Lemma evolves_update spanId now metadata error spans :
  evolves spans
    (update_found spanId (completed_span now metadata error) spans).
Proof.
  induction spans as [|s spans IH]; simpl; [apply evolves_refl|].
  destruct (String.eqb (TraceSpan.id s) spanId).
  - intros [|i] span H; simpl in *.
    + injection H as <-. eexists. split; [done|]. split; [done|].
      intros _. apply completed_span_terminal.
    + by exists span.
  - intros [|i] span H; simpl in *; [by exists span|]. by apply IH.
Qed.

Lemma getTrace_performCleanup now traceId traces :
  getTrace traceId (performCleanup now traces) = None
  \/ getTrace traceId (performCleanup now traces) = getTrace traceId traces.
Proof.
  unfold getTrace, performCleanup, evictOldest, removeStale.
  destruct (Z.ltb _ _); rewrite ?Map_get_delete_each;
    repeat (destruct (JS.includes _ traceId)); auto.
Qed.

(** One operation either drops a trace or lets its span list evolve. *)
Lemma step_trace traces op traceId trace :
  getTrace traceId traces = Some trace ->
  getTrace traceId (step traces op) = None
  \/ exists trace',
       getTrace traceId (step traces op) = Some trace'
       /\ evolves (RequestTrace.spans trace) (RequestTrace.spans trace').
Proof.
  intros Hg.
  assert (forall traces', getTrace traceId traces' = getTrace traceId traces ->
            getTrace traceId traces' = None
            \/ exists trace',
                 getTrace traceId traces' = Some trace'
                 /\ evolves (RequestTrace.spans trace)
                            (RequestTrace.spans trace')) as Hsame.
  { intros traces' ->. right. exists trace. split; [done|apply evolves_refl]. }
  assert (forall id uuid now span,
            getTrace traceId
              (Eff.final (addSpan uuid now id span) traces) = None
            \/ exists trace',
                 getTrace traceId
                   (Eff.final (addSpan uuid now id span) traces) = Some trace'
                 /\ evolves (RequestTrace.spans trace)
                            (RequestTrace.spans trace')) as Hadd.
  { intros id uuid now span. rewrite addSpan_final.
    destruct (JS.Map_get id traces) as [t|] eqn:Ht; [|by apply Hsame].
    unfold getTrace in *. rewrite Map_get_set.
    destruct (String.eqb_spec id traceId) as [->|Hne]; [|by apply Hsame].
    right. eexists. split; [done|]. simpl.
    assert (t = trace) as -> by congruence. apply evolves_push. }
  assert (forall id now spanId metadata error,
            getTrace traceId
              (Eff.final (completeSpan now id spanId metadata error) traces)
            = None
            \/ exists trace',
                 getTrace traceId
                   (Eff.final (completeSpan now id spanId metadata error)
                      traces) = Some trace'
                 /\ evolves (RequestTrace.spans trace)
                            (RequestTrace.spans trace')) as Hcomplete.
  { intros id now spanId metadata error. rewrite completeSpan_final.
    destruct (JS.Map_get id traces) as [t|] eqn:Ht; [|by apply Hsame].
    destruct (List.find _ (RequestTrace.spans t)); [|by apply Hsame].
    unfold getTrace in *. rewrite Map_get_set.
    destruct (String.eqb_spec id traceId) as [->|Hne]; [|by apply Hsame].
    right. eexists. split; [done|]. simpl.
    assert (t = trace) as -> by congruence. apply evolves_update. }
  destruct op; simpl.
  - rewrite createTrace_final.
    destruct (JS.Map_get traceId0 traces) eqn:Ht; [by apply Hsame|].
    unfold getTrace in *. rewrite Map_get_set.
    destruct (String.eqb_spec traceId0 traceId) as [->|Hne]; [congruence|].
    destruct (nearCapacity traces); [|by apply Hsame].
    destruct (getTrace_performCleanup now traceId traces) as [Hn|He];
      [by left|by apply Hsame].
  - apply Hadd.
  - apply Hcomplete.
  - rewrite completeTrace_final.
    destruct (JS.Map_get traceId0 traces) as [t|] eqn:Ht; [|by apply Hsame].
    unfold getTrace in *. rewrite Map_get_set.
    destruct (String.eqb_spec traceId0 traceId) as [->|Hne]; [|by apply Hsame].
    right. eexists. split; [done|]. simpl.
    assert (t = trace) as -> by congruence. apply evolves_refl.
  - rewrite addRequestSpan_final.
    destruct (negb (JS.truthy (getTraceId c))); [by apply Hsame|apply Hadd].
  - rewrite completeRequestSpan_final.
    destruct (negb (JS.truthy (getTraceId c)));
      [by apply Hsame|apply Hcomplete].
  - destruct (getTrace_performCleanup now traceId traces) as [Hn|He];
      [by left|by apply Hsame].
  - unfold timeoutCallback, getTrace in *. rewrite Map_get_delete.
    destruct (String.eqb traceId0 traceId); [by left|by apply Hsame].
  - by left.
Qed.

End StatusFacts.

(** Claim C7, a concrete run.  A second [completeSpan] overwrites a terminal
    status: the span completed at time 2 holds ['completed'], and after a
    further [completeSpan] with an error message it holds ['error']; a
    third call without one turns it back into ['completed']. *)
Lemma C7_terminal_status_overwritten :
  let spec := SpanSpec.mk "db.query" None None None None None in
  let ops :=
    [ Trace.CreateTrace 0 "t1" Sample.metadata;
      Trace.AddSpan "span-1" 1 "t1" spec;
      Trace.CompleteSpan 2 "t1" "span-1" None None ] in
  let again := Trace.CompleteSpan 3 "t1" "span-1" None (Some "timed out") in
  let third := Trace.CompleteSpan 4 "t1" "span-1" None None in
  Trace.status_at (Trace.run ops []) "t1" 0 = Some SpanStatus.completed
  /\ Trace.status_at (Trace.run (ops ++ [again]) []) "t1" 0
     = Some SpanStatus.error
  /\ Trace.status_at (Trace.run (ops ++ [again; third]) []) "t1" 0
     = Some SpanStatus.completed.
Proof. repeat split; reflexivity. Qed.

(** Claim C7, as the code has it.  Along every run during which its trace stays in the
    store, a span that holds a terminal status keeps its place and id and
    still holds a terminal status at the end: no operation sets a status
    back to ['started']. *)
Theorem C7_terminal_status_stays_terminal (ops : list Trace.Op)
  (traces : Trace.Store) (traceId : string) (i : nat) (span : TraceSpan.t) :
  Trace.span_at traces traceId i = Some span ->
  Trace.terminal (TraceSpan.status span) = true ->
  Trace.stays traceId ops traces = true ->
  exists span',
    Trace.span_at (Trace.run ops traces) traceId i = Some span'
    /\ TraceSpan.id span' = TraceSpan.id span
    /\ Trace.terminal (TraceSpan.status span') = true.
Proof.
  revert traces span.
  induction ops as [|op ops IH]; intros traces span Hat Hterm Hstays.
  - by exists span.
  - simpl in Hstays.
    unfold Trace.span_at in Hat.
    destruct (Trace.getTrace traceId traces) as [trace|] eqn:Hg; [|done].
    destruct (step_trace traces op traceId trace Hg)
      as [Hnone|(trace' & Hg' & Hev)]; [by rewrite Hnone in Hstays|].
    rewrite Hg' in Hstays.
    destruct (Hev i span Hat) as (span1 & Hat1 & Hid1 & Hterm1).
    destruct (IH (Trace.step traces op) span1) as (span' & Hat' & Hid' & Ht');
      [by unfold Trace.span_at; rewrite Hg'|by apply Hterm1|done|].
    exists span'. split; [done|]. split; [congruence|done].
Qed.

Lemma C7_terminal_status_stays_terminal_witness :
  exists span',
    Trace.span_at
      (Trace.run
         [ Trace.CompleteSpan 3 "t1" "span-1" None (Some "timed out");
           Trace.Interval 4 ]
         (Trace.run
            [ Trace.CreateTrace 0 "t1" Sample.metadata;
              Trace.AddSpan "span-1" 1 "t1"
                (SpanSpec.mk "db.query" None None None None None);
              Trace.CompleteSpan 2 "t1" "span-1" None None ] []))
      "t1" 0 = Some span'
    /\ TraceSpan.id span' = "span-1"
    /\ Trace.terminal (TraceSpan.status span') = true.
Proof.
  apply (C7_terminal_status_stays_terminal _ _ "t1" 0
           (TraceSpan.mk "span-1" "db.query" 1 (Some 2) (Some 1)
              SpanStatus.completed None None None));
    reflexivity.
Defined.

(** ** The context-bound helpers *)

Section HelperFacts.
Import Trace.
Implicit Types (traces : Store) (c : Ctx.t).


(** Without a trace id [addRequestSpan] returns [undefined] and leaves the
    store as it is. *)
Lemma addRequestSpan_unresolved uuid now c name metadata tags traces :
  JS.truthy (getTraceId c) = false ->
  addRequestSpan uuid now c name metadata tags traces = (inr None, traces).
Proof. intros H. unfold addRequestSpan. by rewrite H. Qed.


End HelperFacts.

(** Claim C3, a concrete run.  A request whose context holds the
    trace id ["t1"] starts at time 0; the interval callback runs at time
    300001 and removes the trace, which is older than the TTL; the next
    [addRequestSpan] of that request throws. *)
Theorem C3_addRequestSpan_throws_after_eviction :
  let c := Sample.context "t1" in
  let traces :=
    Trace.run [Trace.CreateTrace 0 "t1" Sample.metadata;
               Trace.Interval 300001] [] in
  Trace.getTraceId c = Some "t1"
  /\ Eff.outcome
       (Trace.addRequestSpan "span-1" 300002 c "trpc_auth_validation"
          None None) traces
     = inl (JS.Error "Trace not found: t1").
Proof. split; reflexivity. Qed.

(** ** [logCall] *)

Section LoggingFacts.
Import Runtime Logging.
Variable sink : list LogEntry.t -> option JS.Err.
Implicit Types (w : World) (r : Readings) (callData : CallData.t).

Lemma logCall_run r callData w :
  logCall sink r callData w
  = (inr tt,
     mkWorld
       (<[CallData.sessionId callData :=
            recorded (prior w (CallData.sessionId callData)
                        (CallData.userId callData) (now r))
                     (stamped (uuid r) (stamp r) callData)]>
          (sessionStats w))
       (if Datadog.isLoggingProcedure (CallData.procedure callData)
        then submitted w
        else submitted w ++ [[exported r callData]])
       (if Datadog.isLoggingProcedure (CallData.procedure callData)
        then console w
        else match sink [exported r callData] with
             | Some e =>
                 console w ++ [console_error Datadog.failure_text e]
             | None => console w
             end)).
Proof.
  unfold logCall, Datadog.logSingleCall, updateSessionStats, prior, exported.
  simpl.
  destruct (Datadog.isLoggingProcedure (CallData.procedure callData)).
  - eff_unfold. unfold get_sessions, put_sessions. simpl.
    destruct w as [sessions subm cons]. simpl.
    by destruct (sessions !! CallData.sessionId callData).
  - eff_unfold. unfold Datadog.submitLog, get_sessions, put_sessions,
      log_error. simpl.
    destruct w as [sessions subm cons]. simpl.
    destruct (sink _); simpl;
      by destruct (sessions !! CallData.sessionId callData).
Qed.

End LoggingFacts.

(** Claim C1.  Whatever the sink does, [logCall] returns normally,
    and the aggregate of the call's session is updated: one more call, the
    call's duration added, one more error exactly when the call carries
    one; the other sessions are untouched, and a rejection by the sink is
    written to the console. *)
Theorem C1_logCall_contains_export_failure
  (sink : list LogEntry.t -> option JS.Err) (r : Logging.Readings)
  (callData : CallData.t) (w : Runtime.World) :
  let sessionId := CallData.sessionId callData in
  let before :=
    Logging.prior w sessionId (CallData.userId callData) (Logging.now r) in
  let w' := Eff.final (Logging.logCall sink r callData) w in
  Eff.outcome (Logging.logCall sink r callData) w = inr tt
  /\ (exists after,
         Runtime.sessionStats w' !! sessionId = Some after
         /\ LoggingState.totalCalls after
            = LoggingState.totalCalls before + 1
         /\ LoggingState.totalDuration after
            = LoggingState.totalDuration before + CallData.duration callData
         /\ LoggingState.totalErrors after
            = LoggingState.totalErrors before
              + (if Logging.carriesError callData then 1 else 0))
  /\ (forall other,
         other <> sessionId ->
         Runtime.sessionStats w' !! other = Runtime.sessionStats w !! other)
  /\ (forall e,
         Datadog.isLoggingProcedure (CallData.procedure callData) = false ->
         sink [Logging.exported r callData] = Some e ->
         Runtime.console w'
         = (Runtime.console w
              ++ [Runtime.console_error Datadog.failure_text e])%list).
Proof.
  intros sessionId before w'. unfold w', Eff.outcome, Eff.final.
  rewrite logCall_run. simpl. split_and!.
  - done.
  - eexists. split; [apply lookup_insert_eq|].
    unfold Logging.recorded, Logging.carriesError. simpl.
    subst before sessionId.
    destruct (JS.truthy (CallData.error callData)); split_and!; lia.
  - intros other Hne. by apply lookup_insert_ne.
  - intros e Hproc Hsink. by rewrite Hproc, Hsink.
Qed.

(** Claim C2, a concrete run.  A call of the procedure
    ["logging.getSessionStats"] on a session never seen before leaves an
    aggregate with one call for that session. *)
Lemma C2_logging_procedure_changes_stats :
  let callData := Sample.call "s1" "u1" "logging.getSessionStats" 3 None in
  let w' :=
    Eff.final (Logging.logCall Sample.accepting (Sample.readings 1000) callData)
      Sample.emptyWorld in
  Datadog.isLoggingProcedure (CallData.procedure callData) = true
  /\ Runtime.sessionStats Sample.emptyWorld !! "s1" = None
  /\ Runtime.sessionStats w' !! "s1"
     = Some (LoggingState.mk "s1" "u1" 1000 1000 1 0 3).
Proof. split_and!; reflexivity. Qed.

(** Claim C2, as the code has it.  For a call of one of the four logging procedures,
    [logCall] submits nothing to the sink and writes nothing to the
    console, and it records the call in the session aggregate like any
    other call. *)
Theorem C2_logging_procedure_not_exported
  (sink : list LogEntry.t -> option JS.Err) (r : Logging.Readings)
  (callData : CallData.t) (w : Runtime.World) :
  Datadog.isLoggingProcedure (CallData.procedure callData) = true ->
  let sessionId := CallData.sessionId callData in
  let w' := Eff.final (Logging.logCall sink r callData) w in
  Eff.outcome (Logging.logCall sink r callData) w = inr tt
  /\ Runtime.submitted w' = Runtime.submitted w
  /\ Runtime.console w' = Runtime.console w
  /\ Runtime.sessionStats w'
     = <[sessionId :=
           Logging.recorded
             (Logging.prior w sessionId (CallData.userId callData)
                (Logging.now r))
             (Logging.stamped (Logging.uuid r) (Logging.stamp r) callData)]>
         (Runtime.sessionStats w).
Proof.
  intros Hproc sessionId w'. unfold w', Eff.outcome, Eff.final.
  rewrite logCall_run, Hproc. by simpl.
Qed.

Lemma C2_logging_procedure_not_exported_witness :
  let callData := Sample.call "s1" "u1" "logging.clearSession" 7 None in
  let w' :=
    Eff.final (Logging.logCall Sample.rejecting (Sample.readings 1000) callData)
      Sample.emptyWorld in
  Datadog.isLoggingProcedure (CallData.procedure callData) = true
  /\ Runtime.submitted w' = Runtime.submitted Sample.emptyWorld.
Proof.
  split; [reflexivity|].
  exact (proj1 (proj2
    (C2_logging_procedure_not_exported Sample.rejecting
       (Sample.readings 1000)
       (Sample.call "s1" "u1" "logging.clearSession" 7 None)
       Sample.emptyWorld eq_refl))).
Defined.

(** ** Session statistics *)

Section StatsFacts.
Import Runtime Logging.
Variable sink : list LogEntry.t -> option JS.Err.
Implicit Types (w : World) (calls : list (Readings * CallData.t)).





End StatsFacts.



(** Two calls of 42 ms, the second with an error, give an average of 42
    and an error rate of 50. *)
Example session_stats_scenario :
  let calls :=
    [ (Sample.readings 1000, Sample.call "s1" "u1" "mail.send" 42 None);
      (Sample.readings 2000,
       Sample.call "s1" "u1" "mail.send" 42 (Some "SMTP timeout")) ] in
  match Eff.outcome
          (Logging.logCalls Sample.accepting calls;;
           Logging.getSessionStats 3000 "s1") Sample.emptyWorld with
  | inr stats =>
      SessionStats.totalCalls stats = 2
      /\ SessionStats.totalErrors stats = 1
      /\ Qeq (SessionStats.averageDuration stats) (inject_Z 42)
      /\ Qeq (SessionStats.errorRate stats) (inject_Z 50)
  | inl _ => False
  end.
Proof. vm_compute. repeat split; reflexivity. Qed.

(** Claim C10.  On a session absent from the map, [getState] and
    [getSessionStats] both insert a zeroed aggregate with an empty user id
    and both timestamps equal to the clock; a later [updateSessionStats]
    for that session counts on that aggregate and leaves its user id
    empty. *)
Theorem C10_reads_insert_aggregate (now : Z) (sessionId : string)
  (w : Runtime.World) :
  Runtime.sessionStats w !! sessionId = None ->
  let fresh := LoggingState.mk sessionId "" now now 0 0 0 in
  Logging.getState now sessionId w
  = (inr fresh,
     Runtime.mkWorld (<[sessionId := fresh]> (Runtime.sessionStats w))
       (Runtime.submitted w) (Runtime.console w))
  /\ Runtime.sessionStats (Eff.final (Logging.getSessionStats now sessionId) w)
     = <[sessionId := fresh]> (Runtime.sessionStats w)
  /\ (forall later userId log,
         Runtime.sessionStats
           (Eff.final
              (Logging.getState now sessionId;;
               Logging.updateSessionStats later sessionId userId log) w)
         !! sessionId
         = Some (LoggingState.mk sessionId "" now (TRPCCallLog.timestamp log)
                   1 (if JS.truthy (TRPCCallLog.error log) then 1 else 0)
                   (TRPCCallLog.duration log))).
Proof.
  intros Habsent fresh.
  assert (Logging.getState now sessionId w
          = (inr fresh,
             Runtime.mkWorld (<[sessionId := fresh]> (Runtime.sessionStats w))
               (Runtime.submitted w) (Runtime.console w))) as Hget.
  { unfold Logging.getState. eff_unfold.
    unfold Runtime.get_sessions, Runtime.put_sessions. simpl.
    by rewrite Habsent. }
  split_and!.
  - exact Hget.
  - unfold Logging.getSessionStats, Eff.final. eff_unfold.
    by rewrite Hget.
  - intros later userId log. unfold Eff.final. eff_unfold. rewrite Hget.
    unfold Logging.updateSessionStats. eff_unfold.
    unfold Runtime.get_sessions, Runtime.put_sessions. simpl.
    rewrite !lookup_insert_eq. unfold Logging.recorded, fresh. simpl.
    by destruct (JS.truthy (TRPCCallLog.error log)).
Qed.

Lemma C10_reads_insert_aggregate_witness :
  Runtime.sessionStats Sample.emptyWorld !! "s1" = None
  /\ Runtime.sessionStats
       (Eff.final (Logging.getSessionStats 1000 "s1") Sample.emptyWorld)
     = <["s1" := LoggingState.mk "s1" "" 1000 1000 0 0 0]>
         (Runtime.sessionStats Sample.emptyWorld).
Proof.
  split; [reflexivity|].
  exact (proj1 (proj2
    (C10_reads_insert_aggregate 1000 "s1" Sample.emptyWorld eq_refl))).
Defined.

(** ** User-agent classification *)


(** A user agent that matches no pattern is classified as unknown. *)
Example parseUserAgent_unmatched :
  Datadog.parseUserAgent (Some "curl/8.4.0")
  = Some (DeviceInfo.mk "unknown" "" "unknown" "" "unknown" "curl/8.4.0").
Proof. reflexivity. Qed.

Example parseUserAgent_desktop_chrome :
  Datadog.parseUserAgent
    (Some "Mozilla/5.0 (Macintosh; Intel Mac OS X 10_15_7) Chrome/120.0 Safari/537.36")
  = Some (DeviceInfo.mk "chrome" "120.0" "macos" "10.15.7" "desktop"
            "Mozilla/5.0 (Macintosh; Intel Mac OS X 10_15_7) Chrome/120.0 Safari/537.36").
Proof. reflexivity. Qed.

Lemma parseUserAgent_absent (userAgent : option string) :
  JS.truthy userAgent = false -> Datadog.parseUserAgent userAgent = None.
Proof.
  destruct userAgent as [ua|]; simpl; [|done]. by intros ->.
Qed.




(* ===================================================================== *)
(** * Further properties of the trace store *)
(* ===================================================================== *)

Section StoreOps.
Import Trace.
Implicit Types (traces : Store).

Lemma Map_has_get {V} k (m : list (string * V)) :
  JS.Map_has k m = bool_decide (is_Some (JS.Map_get k m)).
Proof.
  unfold JS.Map_has, JS.Map_get.
  induction m as [|[a x] m IH]; simpl; [done|].
  destruct (String.eqb a k); simpl; done.
Qed.

Lemma Map_keys_set_present {V} k (v v' : V) (m : list (string * V)) :
  JS.Map_get k m = Some v' -> JS.Map_keys (JS.Map_set k v m) = JS.Map_keys m.
Proof.
  intros H. rewrite Map_keys_set, Map_has_get, H.
  rewrite bool_decide_eq_true_2; [done|by eexists].
Qed.

Lemma In_Map_set {V} k (v : V) (m : list (string * V)) e :
  In e (JS.Map_set k v m) -> e = (k, v) \/ In e m.
Proof.
  induction m as [|[a x] m IH]; simpl.
  - intros [<-|[]]. by left.
  - destruct (String.eqb a k); simpl.
    + intros [<-|H]; [by left|right; by right].
    + intros [<-|H]; [right; by left|].
      destruct (IH H) as [->|H']; [by left|right; by right].
Qed.

Lemma Forall_Map_set {V} (P : string * V -> Prop) k (v : V)
  (m : list (string * V)) :
  P (k, v) -> Forall P m -> Forall P (JS.Map_set k v m).
Proof.
  intros Hv Hm. apply Forall_forall. intros e He.
  apply list_elem_of_In, In_Map_set in He as [->|He]; [done|].
  rewrite Forall_forall in Hm. by apply Hm, list_elem_of_In.
Qed.

Lemma Forall_get {V} (P : string * V -> Prop) k (v : V)
  (m : list (string * V)) :
  Forall P m -> JS.Map_get k m = Some v -> P (k, v).
Proof.
  intros Hm Hg. rewrite Forall_forall in Hm.
  by apply Hm, list_elem_of_In, Map_get_Some_In.
Qed.

Lemma createTrace_run now traceId metadata traces :
  createTrace now traceId metadata traces
  = match JS.Map_get traceId traces with
    | Some existing => (inr existing, traces)
    | None =>
        (inr (RequestTrace.mk traceId now None None [] metadata),
         JS.Map_set traceId (RequestTrace.mk traceId now None None [] metadata)
           (if nearCapacity traces then performCleanup now traces
            else traces))
    end.
Proof.
  unfold createTrace. eff_unfold.
  by destruct (JS.Map_get traceId traces).
Qed.

End StoreOps.

(** Extra X1.  [createTrace] is idempotent: it returns a trace that
    [getTrace] then finds under the same id, a fresh one (no spans, started
    now) when the id was absent; and a second call with the same id,
    whatever its time and metadata, returns that very trace and changes
    nothing, not even by a cleanup. *)
Theorem createTrace_idempotent (now now' : Z) (traceId : string)
  (metadata metadata' : TraceMetadata.t) (traces : Trace.Store) :
  exists trace,
    Eff.outcome (Trace.createTrace now traceId metadata) traces = inr trace
    /\ Trace.getTrace traceId
         (Eff.final (Trace.createTrace now traceId metadata) traces)
       = Some trace
    /\ (Trace.getTrace traceId traces = None ->
        trace = RequestTrace.mk traceId now None None [] metadata)
    /\ Trace.createTrace now' traceId metadata'
         (Eff.final (Trace.createTrace now traceId metadata) traces)
       = (inr trace,
          Eff.final (Trace.createTrace now traceId metadata) traces).
Proof.
  unfold Eff.outcome, Eff.final, Trace.getTrace.
  rewrite createTrace_run.
  destruct (JS.Map_get traceId traces) as [existing|] eqn:Hg; simpl.
  - exists existing. split_and!; [done|done|done|].
    by rewrite createTrace_run, Hg.
  - eexists. split; [reflexivity|].
    assert (forall m : Trace.Store,
              JS.Map_get traceId
                (JS.Map_set traceId
                   (RequestTrace.mk traceId now None None [] metadata) m)
              = Some (RequestTrace.mk traceId now None None [] metadata))
      as Hset by (intros m; by rewrite Map_get_set, String.eqb_refl).
    split_and!; [apply Hset|done|].
    by rewrite createTrace_run, Hset.
Qed.

Lemma unknown_ids_leave_store_aux (traces : Trace.Store) (traceId : string) :
  Trace.getTrace traceId traces = None ->
  forall uuid now span,
    Trace.addSpan uuid now traceId span traces
    = (inl (JS.Error ("Trace not found: " +:+ traceId)), traces).
Proof.
  unfold Trace.getTrace. intros Hg uuid now span.
  unfold Trace.addSpan. eff_unfold. by rewrite Hg.
Qed.

(** Extra X2.  Unknown identifiers: on a trace id absent from the store
    [addSpan] throws [Trace not found] while [completeSpan] and
    [completeTrace] return normally; [completeSpan] also returns normally
    when the trace has no span of the given id.  In all four cases the
    store is left as it was. *)
Theorem unknown_ids_leave_store (traces : Trace.Store) (traceId : string) :
  Trace.getTrace traceId traces = None ->
  (forall uuid now span,
      Trace.addSpan uuid now traceId span traces
      = (inl (JS.Error ("Trace not found: " +:+ traceId)), traces))
  /\ (forall now spanId metadata error,
         Trace.completeSpan now traceId spanId metadata error traces
         = (inr tt, traces))
  /\ (forall now,
         Trace.completeTrace now traceId traces = (inr None, traces))
  /\ (forall now other trace spanId metadata error,
         Trace.getTrace other traces = Some trace ->
         Forall (fun s => TraceSpan.id s <> spanId)
                (RequestTrace.spans trace) ->
         Trace.completeSpan now other spanId metadata error traces
         = (inr tt, traces)).
Proof.
  unfold Trace.getTrace. intros Hg. split_and!.
  - intros. unfold Trace.addSpan. eff_unfold. by rewrite Hg.
  - intros. unfold Trace.completeSpan. eff_unfold. by rewrite Hg.
  - intros. unfold Trace.completeTrace. eff_unfold. by rewrite Hg.
  - intros now other trace spanId metadata error Ho Hall.
    unfold Trace.completeSpan. eff_unfold. rewrite Ho.
    destruct (List.find _ (RequestTrace.spans trace)) as [s|] eqn:Hf; [|done].
    apply List.find_some in Hf as [Hin Heq].
    rewrite Forall_forall in Hall.
    apply String.eqb_eq in Heq. by apply list_elem_of_In, Hall in Hin.
Qed.

Lemma unknown_ids_leave_store_witness :
  Trace.getTrace "t9" (Sample.created 2) = None
  /\ Trace.completeTrace 5 "t9" (Sample.created 2)
     = (inr None, Sample.created 2).
Proof.
  split; [reflexivity|].
  exact (proj1 (proj2 (proj2
    (unknown_ids_leave_store (Sample.created 2) "t9" eq_refl))) 5).
Defined.

Section SpanOrder.
Import Trace.

Lemma addSpan_present uuid now traceId span traces trace :
  getTrace traceId traces = Some trace ->
  addSpan uuid now traceId span traces
  = (inr (TraceInv.fullSpan uuid now span),
     JS.Map_set traceId
       (with_spans trace
          (RequestTrace.spans trace ++ [TraceInv.fullSpan uuid now span])%list)
       traces).
Proof.
  unfold getTrace. intros Hg. unfold addSpan. eff_unfold. by rewrite Hg.
Qed.

End SpanOrder.

(** Extra X3.  Spans are kept in call order: after consecutive calls of
    [addSpan] on a trace of the store, the trace holds its former spans
    followed by one started span per call, in the order of the calls, with
    the id and start time each call was given; its own timestamps and
    metadata, and the keys of the store with their order, are unchanged. *)
Theorem addSpans_in_call_order (traceId : string)
  (calls : list (string * Z * SpanSpec.t)) (traces : Trace.Store)
  (trace : RequestTrace.t) :
  Trace.getTrace traceId traces = Some trace ->
  Trace.getTrace traceId (Trace.run (TraceInv.addSpans traceId calls) traces)
  = Some (Trace.with_spans trace
            (RequestTrace.spans trace
               ++ map (fun c => TraceInv.fullSpan (fst (fst c)) (snd (fst c))
                                  (snd c)) calls)%list)
  /\ JS.Map_keys (Trace.run (TraceInv.addSpans traceId calls) traces)
     = JS.Map_keys traces.
Proof.
  revert traces trace.
  induction calls as [|[[uuid now] span] calls IH]; intros traces trace Hg.
  - simpl. rewrite app_nil_r. split; [|done].
    rewrite Hg. by destruct trace.
  - simpl. unfold Eff.final.
    rewrite (addSpan_present uuid now traceId span traces trace Hg). simpl.
    set (trace1 := Trace.with_spans trace _).
    assert (Trace.getTrace traceId (JS.Map_set traceId trace1 traces)
            = Some trace1) as Hg1.
    { unfold Trace.getTrace. by rewrite Map_get_set, String.eqb_refl. }
    destruct (IH _ _ Hg1) as [Hspans Hkeys]. split.
    + unfold Trace.run in *. rewrite Hspans. f_equal.
      unfold trace1, Trace.with_spans. simpl. f_equal.
      by rewrite <- app_assoc.
    + unfold Trace.run in *. rewrite Hkeys.
      by apply (Map_keys_set_present _ _ trace).
Qed.

Lemma addSpans_in_call_order_witness :
  let spec name := SpanSpec.mk name None None None None None in
  let calls := [("a", 1, spec "auth"); ("b", 2, spec "db"); ("c", 3, spec "render")] in
  Trace.getTrace "0" (Sample.created 1) = Some (Sample.newTrace "0" 0)
  /\ Trace.getTrace "0"
       (Trace.run (TraceInv.addSpans "0" calls) (Sample.created 1))
     = Some (Trace.with_spans (Sample.newTrace "0" 0)
               (map (fun c => TraceInv.fullSpan (fst (fst c)) (snd (fst c))
                                (snd c)) calls)).
Proof.
  split; [reflexivity|].
  exact (proj1 (addSpans_in_call_order "0" _ (Sample.created 1)
                  (Sample.newTrace "0" 0) eq_refl)).
Defined.

Section CompleteSpan.
Import Trace.

(** The first span with the id is the one [find] returns and
    [update_found] replaces. *)
Lemma first_with_id spanId (f : TraceSpan.t -> TraceSpan.t)
  (spans : list TraceSpan.t) (i : nat) (span : TraceSpan.t) :
  nth_error spans i = Some span ->
  TraceSpan.id span = spanId ->
  (forall j s, (j < i)%nat -> nth_error spans j = Some s ->
               TraceSpan.id s <> spanId) ->
  List.find (fun s => String.eqb (TraceSpan.id s) spanId) spans = Some span
  /\ update_found spanId f spans
     = (firstn i spans ++ f span :: skipn (S i) spans)%list.
Proof.
  revert i. induction spans as [|s spans IH]; intros i Hn Hid Hfirst.
  - by destruct i.
  - destruct i as [|i]; simpl in *.
    + injection Hn as ->. rewrite Hid, String.eqb_refl. done.
    + assert (TraceSpan.id s <> spanId) as Hs
        by (apply (Hfirst 0%nat s); [lia|done]).
      apply String.eqb_neq in Hs. rewrite Hs.
      destruct (IH i Hn Hid) as [Hf Hu].
      { intros j t Hj Ht. apply (Hfirst (S j) t); [lia|done]. }
      by rewrite Hf, Hu.
Qed.

Lemma completeSpan_first_run now traceId spanId metadata error traces trace
  (i : nat) (span : TraceSpan.t) :
  getTrace traceId traces = Some trace ->
  nth_error (RequestTrace.spans trace) i = Some span ->
  TraceSpan.id span = spanId ->
  (forall j s, (j < i)%nat -> nth_error (RequestTrace.spans trace) j = Some s ->
               TraceSpan.id s <> spanId) ->
  completeSpan now traceId spanId metadata error traces
  = (inr tt,
     JS.Map_set traceId
       (with_spans trace
          (firstn i (RequestTrace.spans trace)
             ++ completed_span now metadata error span
                  :: skipn (S i) (RequestTrace.spans trace))%list)
       traces).
Proof.
  intros Hg Hn Hid Hfirst.
  destruct (first_with_id spanId (completed_span now metadata error)
              _ i span Hn Hid Hfirst) as [Hf Hu].
  unfold completeSpan, getTrace in *. eff_unfold.
  by rewrite Hg, Hf, Hu.
Qed.

End CompleteSpan.

(** Extra X4.  [completeSpan] acts on the first span of the trace that has
    the given id, and on nothing else: that span gets the end timestamp
    [now], the duration [now - startTime] and the status ['error'] or
    ['completed'] according to the error argument, keeps its id, name and
    start time, and the spans before and after it are untouched. *)
Theorem completeSpan_completes_first (now : Z) (traceId spanId : string)
  (metadata : option (list (string * JS.Any))) (error : option string)
  (traces : Trace.Store) (trace : RequestTrace.t) (i : nat)
  (span : TraceSpan.t) :
  Trace.getTrace traceId traces = Some trace ->
  nth_error (RequestTrace.spans trace) i = Some span ->
  TraceSpan.id span = spanId ->
  (forall j s, (j < i)%nat -> nth_error (RequestTrace.spans trace) j = Some s ->
               TraceSpan.id s <> spanId) ->
  let done := Trace.completed_span now metadata error span in
  Trace.completeSpan now traceId spanId metadata error traces
  = (inr tt,
     JS.Map_set traceId
       (Trace.with_spans trace
          (firstn i (RequestTrace.spans trace)
             ++ done :: skipn (S i) (RequestTrace.spans trace))%list)
       traces)
  /\ TraceSpan.endTime done = Some now
  /\ TraceSpan.duration done = Some (now - TraceSpan.startTime span)
  /\ TraceSpan.status done
     = (if JS.truthy error then SpanStatus.error else SpanStatus.completed)
  /\ TraceSpan.id done = spanId
  /\ TraceSpan.name done = TraceSpan.name span
  /\ TraceSpan.startTime done = TraceSpan.startTime span.
Proof.
  intros Hg Hn Hid Hfirst done.
  split_and!; try done.
  by apply completeSpan_first_run.
Qed.

Lemma completeSpan_completes_first_witness :
  let a := TraceInv.fullSpan "a" 1 (SpanSpec.mk "auth" None None None None None) in
  let b := TraceInv.fullSpan "b" 2 (SpanSpec.mk "db" None None None None None) in
  let trace := Trace.with_spans (Sample.newTrace "0" 0) [a; b] in
  Trace.getTrace "0" [("0", trace)] = Some trace
  /\ Trace.completeSpan 9 "0" "b" None (Some "deadlock") [("0", trace)]
     = (inr tt,
        JS.Map_set "0"
          (Trace.with_spans trace
             [a; Trace.completed_span 9 None (Some "deadlock") b])
          [("0", trace)]).
Proof.
  intros a b trace. split; [reflexivity|].
  refine (proj1 (completeSpan_completes_first 9 "0" "b" None (Some "deadlock")
                   [("0", trace)] trace 1 b eq_refl eq_refl eq_refl _)).
  intros [|[|j]] s Hj Hs; [|lia|lia]. injection Hs as <-. done.
Defined.

Section Spread.
Context {V : Type}.

Lemma Map_get_cons k k' (v' : V) (m : list (string * V)) :
  JS.Map_get k ((k', v') :: m)
  = if String.eqb k' k then Some v' else JS.Map_get k m.
Proof. unfold JS.Map_get. simpl. by destruct (String.eqb k' k). Qed.

Lemma fold_set_lookup (old new : list (string * V)) k :
  NoDup (map fst new) ->
  JS.Map_get k (fold_left (fun acc kv => JS.Map_set (fst kv) (snd kv) acc)
                          new old)
  = match JS.Map_get k new with
    | Some v => Some v
    | None => JS.Map_get k old
    end.
Proof.
  revert old. induction new as [|[k' v'] new IH]; intros old Hnd;
    [reflexivity|].
  simpl in Hnd. apply NoDup_cons in Hnd as [Hk' Hnd].
  simpl fold_left. rewrite (IH _ Hnd), Map_get_set, Map_get_cons. simpl.
  destruct (String.eqb_spec k' k) as [->|Hne]; [|done].
  assert (JS.Map_get k new = None) as ->; [|done].
  apply Map_get_None_keys. intros Hin. by apply Hk', list_elem_of_In.
Qed.

End Spread.

(** Extra X5.  [completeSpan] merges metadata instead of replacing it: with
    distinct keys in the argument, a key of the completed span's metadata
    has the value given by the argument when the argument has the key, and
    else the value the span had before; without a metadata argument the
    span's metadata is kept as it is. *)
Theorem completeSpan_merges_metadata (now : Z)
  (metadata : list (string * JS.Any)) (error : option string)
  (span : TraceSpan.t) (k : string) :
  JS.Map_wf metadata ->
  JS.Map_get k
    (default []
       (TraceSpan.metadata (Trace.completed_span now (Some metadata) error span)))
  = match JS.Map_get k metadata with
    | Some v => Some v
    | None => JS.Map_get k (default [] (TraceSpan.metadata span))
    end
  /\ TraceSpan.metadata (Trace.completed_span now None error span)
     = TraceSpan.metadata span.
Proof.
  intros Hwf. split; [|done]. unfold Trace.completed_span. simpl.
  destruct (TraceSpan.metadata span) as [old|]; simpl.
  - by apply fold_set_lookup.
  - by destruct (JS.Map_get k metadata).
Qed.

Lemma completeSpan_merges_metadata_witness :
  let span :=
    TraceSpan.mk "a" "auth" 1 None None SpanStatus.started
      (Some [("procedure", JS.AString "private");
             ("success", JS.ABool false)]) None None in
  JS.Map_get "procedure"
    (default []
       (TraceSpan.metadata
          (Trace.completed_span 5 (Some [("success", JS.ABool true)]) None
             span)))
  = Some (JS.AString "private").
Proof.
  intros span.
  exact (proj1 (completeSpan_merges_metadata 5 [("success", JS.ABool true)]
                  None span "procedure" (NoDup_singleton "success"))).
Defined.

(** Extra X6.  [completeTrace] on a stored trace stamps it with the end
    time [now] and the duration [now - startTime], keeps its spans and its
    place, and returns it; when the callback it schedules runs, that trace
    is gone and every other trace is as before. *)
Theorem completeTrace_then_timeout (now : Z) (traceId : string)
  (traces : Trace.Store) (trace : RequestTrace.t) :
  Trace.getTrace traceId traces = Some trace ->
  let ended :=
    RequestTrace.mk (RequestTrace.traceId trace) (RequestTrace.startTime trace)
      (Some now) (Some (now - RequestTrace.startTime trace))
      (RequestTrace.spans trace) (RequestTrace.metadata trace) in
  let traces' := Eff.final (Trace.completeTrace now traceId) traces in
  Eff.outcome (Trace.completeTrace now traceId) traces = inr (Some ended)
  /\ Trace.getTrace traceId traces' = Some ended
  /\ JS.Map_keys traces' = JS.Map_keys traces
  /\ Trace.getTrace traceId (Trace.timeoutCallback traceId traces') = None
  /\ (forall other,
         other <> traceId ->
         Trace.getTrace other (Trace.timeoutCallback traceId traces')
         = Trace.getTrace other traces).
Proof.
  intros Hg ended traces'. unfold Trace.getTrace in *.
  assert (Trace.completeTrace now traceId traces
          = (inr (Some ended), JS.Map_set traceId ended traces)) as Hrun.
  { unfold Trace.completeTrace. eff_unfold. by rewrite Hg. }
  unfold traces', Eff.outcome, Eff.final, Trace.timeoutCallback.
  rewrite Hrun. simpl. split_and!.
  - done.
  - by rewrite Map_get_set, String.eqb_refl.
  - by apply (Map_keys_set_present _ _ trace).
  - by rewrite Map_get_delete, String.eqb_refl.
  - intros other Hne. rewrite Map_get_delete, Map_get_set.
    assert (String.eqb traceId other = false) as ->; [|done].
    apply String.eqb_neq. congruence.
Qed.

Lemma completeTrace_then_timeout_witness :
  Trace.getTrace "1" (Sample.created 3) = Some (Sample.newTrace "1" 0)
  /\ Trace.getTrace "1"
       (Trace.timeoutCallback "1"
          (Eff.final (Trace.completeTrace 40 "1") (Sample.created 3)))
     = None.
Proof.
  split; [reflexivity|].
  exact (proj1 (proj2 (proj2 (proj2
    (completeTrace_then_timeout 40 "1" (Sample.created 3)
       (Sample.newTrace "1" 0) eq_refl))))).
Defined.

Section Stats.
Import Trace.

Lemma fold_max_spec {A} (f : A -> Z) (l : list A) (acc : Z) :
  let m := fold_left (fun a e => Z.max a (f e)) l acc in
  acc <= m
  /\ (forall e, In e l -> f e <= m)
  /\ (m = acc \/ exists e, In e l /\ m = f e).
Proof.
  revert acc. induction l as [|x l IH]; intros acc; simpl.
  - split_and!; [lia|by intros ?|by left].
  - destruct (IH (Z.max acc (f x))) as (Hacc & Hall & Hatt).
    split_and!.
    + lia.
    + intros e [<-|He]; [lia|by apply Hall].
    + destruct Hatt as [Heq|(e & He & Heq)].
      * destruct (Z.max_spec acc (f x)) as [[_ Hm]|[_ Hm]].
        -- right. exists x. split; [by left|lia].
        -- left. lia.
      * right. exists e. split; [by right|done].
Qed.

End Stats.

(** Extra X7.  [getStats] reports the number of stored traces and an
    oldest age that is never negative, is at least the age of every stored
    trace, and is either 0 or the age of one of them; on the empty store
    both numbers are 0. *)
Theorem getStats_oldest_age (now : Z) (traces : Trace.Store) :
  fst (Trace.getStats now traces) = JS.Map_size traces
  /\ 0 <= snd (Trace.getStats now traces)
  /\ (forall e, In e traces ->
                TraceInv.age now e <= snd (Trace.getStats now traces))
  /\ (snd (Trace.getStats now traces) = 0
      \/ exists e, In e traces
                   /\ snd (Trace.getStats now traces) = TraceInv.age now e)
  /\ Trace.getStats now [] = (0, 0).
Proof.
  unfold Trace.getStats, TraceInv.age.
  destruct (Z.eqb_spec (JS.Map_size traces) 0) as [Hz|Hnz]; simpl.
  - assert (traces = []) as ->.
    { unfold JS.Map_size in Hz. destruct traces; [done|simpl in Hz; lia]. }
    split_and!; [done|done|by intros ?|by left|done].
  - destruct (fold_max_spec (fun e => now - Trace.start_of e) traces 0)
      as (Hacc & Hall & Hatt).
    split_and!; [done|done|done| |done].
    destruct Hatt as [->|Hatt]; [by left|by right].
Qed.

Section CleanupAgain.
Import Trace.
Implicit Types (traces : Store).

(** Nothing stale is left by the first pass. *)
Lemma removeStale_fresh now traces e :
  In e (removeStale now traces) -> now - start_of e <= TRACE_TTL_MS.
Proof.
  unfold removeStale. rewrite delete_each_filter, List.filter_In.
  intros [Hin Hk]. destruct (Z.ltb_spec TRACE_TTL_MS (now - start_of e));
    [|done].
  exfalso. apply negb_true_iff, not_true_iff_false in Hk. apply Hk.
  apply includes_In. by apply stale_collected.
Qed.

Lemma removeStale_id now traces :
  (forall e, In e traces -> now - start_of e <= TRACE_TTL_MS) ->
  removeStale now traces = traces.
Proof.
  intros Hfresh. unfold removeStale, tracesToDelete.
  rewrite filter_none; [done|].
  intros e He. apply Z.ltb_ge. by apply Hfresh.
Qed.

Lemma evictOldest_id traces :
  JS.Map_size traces <= MAX_TRACES -> evictOldest traces = traces.
Proof.
  intros Hle. unfold evictOldest.
  by destruct (Z.ltb_spec MAX_TRACES (JS.Map_size traces)); [lia|].
Qed.

Lemma evictOldest_In traces e : In e (evictOldest traces) -> In e traces.
Proof.
  unfold evictOldest.
  destruct (Z.ltb MAX_TRACES (JS.Map_size traces)); [|done].
  rewrite delete_each_filter, List.filter_In. by intros [H _].
Qed.

Lemma performCleanup_id now traces :
  (forall e, In e traces -> now - start_of e <= TRACE_TTL_MS) ->
  JS.Map_size traces <= MAX_TRACES ->
  performCleanup now traces = traces.
Proof.
  intros Hfresh Hsize. unfold performCleanup.
  rewrite removeStale_id by done. by apply evictOldest_id.
Qed.

End CleanupAgain.

(** Extra X8.  [performCleanup] leaves alone a store that needs no
    cleaning: when no trace is older than the TTL and the store holds at
    most [MAX_TRACES] traces, the store after the pass is the store
    before. *)
Theorem performCleanup_nothing_to_do (now : Z) (traces : Trace.Store) :
  (forall e, In e traces -> TraceInv.age now e <= Trace.TRACE_TTL_MS) ->
  JS.Map_size traces <= Trace.MAX_TRACES ->
  Trace.performCleanup now traces = traces.
Proof.
  intros Hfresh Hsize. by apply performCleanup_id.
Qed.

Lemma performCleanup_nothing_to_do_witness :
  Trace.performCleanup 300000 (Sample.created 3) = Sample.created 3.
Proof.
  apply performCleanup_nothing_to_do.
  - intros e He. unfold TraceInv.age.
    rewrite (created_start 3 e He). vm_compute. discriminate.
  - vm_compute. discriminate.
Defined.

(** Extra X9.  [performCleanup] only removes: what it leaves is a sublist of
    the store (no trace added, changed or moved), holds at most
    [MAX_TRACES] traces none of which is older than the TTL, and a second
    pass at the same instant changes nothing. *)
Theorem performCleanup_idempotent (now : Z) (traces : Trace.Store) :
  sublist (Trace.performCleanup now traces) traces
  /\ JS.Map_size (Trace.performCleanup now traces) <= Trace.MAX_TRACES
  /\ (forall e, In e (Trace.performCleanup now traces) ->
                TraceInv.age now e <= Trace.TRACE_TTL_MS)
  /\ Trace.performCleanup now (Trace.performCleanup now traces)
     = Trace.performCleanup now traces.
Proof.
  assert (forall e, In e (Trace.performCleanup now traces) ->
                    TraceInv.age now e <= Trace.TRACE_TTL_MS) as Hfresh.
  { intros e He. apply (removeStale_fresh now traces).
    by apply evictOldest_In. }
  split_and!.
  - etransitivity; [apply evictOldest_sublist|apply removeStale_sublist].
  - apply performCleanup_size_le.
  - exact Hfresh.
  - apply performCleanup_id; [exact Hfresh|].
    apply performCleanup_size_le.
Qed.

(** Extra X10.  When the raw headers object of the request is not
    consulted ([c.req.headers.get] missing), [getRequestTrace] looks up
    exactly the trace id [getTraceId] resolves, and finds nothing when
    [getTraceId] resolves none: the two helpers agree. *)
Theorem getRequestTrace_agrees (c : Ctx.t) (traces : Trace.Store) :
  Ctx.req_headers_get c = None ->
  Trace.getRequestTrace c traces
  = if JS.truthy (Trace.getTraceId c)
    then Trace.getTrace (JS.the (Trace.getTraceId c)) traces
    else None.
Proof.
  intros Hraw. unfold Trace.getRequestTrace, Trace.getTraceId. rewrite Hraw.
  simpl.
  destruct (Ctx.var_traceId c) as [[|? ?]|];
    destruct (Trace.call (Ctx.get c) "traceId") as [[|? ?]|];
    destruct (Trace.call (Ctx.req_header c) "X-Trace-ID") as [[|? ?]|];
    destruct (Trace.call (Ctx.req_header c) "x-trace-id") as [[|? ?]|];
    reflexivity.
Qed.

Lemma getRequestTrace_agrees_witness :
  Trace.getRequestTrace (Sample.context "1") (Sample.created 3)
  = Some (Sample.newTrace "1" 0).
Proof.
  exact (getRequestTrace_agrees (Sample.context "1") (Sample.created 3)
           eq_refl).
Defined.

(** Extra X11.  The helpers disagree on a context whose trace id is only
    reachable through the raw headers object: [getRequestTrace] finds the
    trace of that id, while [getTraceId] resolves nothing, so
    [addRequestSpan] adds no span and returns [undefined]. *)
Theorem raw_header_only_context (c : Ctx.t) (traceId : string)
  (traces : Trace.Store) (uuid : string) (now : Z) (name : string)
  (metadata : option (list (string * JS.Any)))
  (tags : option (list (string * string))) :
  Ctx.var_traceId c = None ->
  Ctx.get c = None ->
  Ctx.req_header c = None ->
  Trace.call (Ctx.req_headers_get c) "X-Trace-ID" = Some traceId ->
  JS.truthy_string traceId = true ->
  Trace.getRequestTrace c traces = Trace.getTrace traceId traces
  /\ Trace.getTraceId c = None
  /\ Trace.addRequestSpan uuid now c name metadata tags traces
     = (inr None, traces).
Proof.
  intros Hvar Hget Hhdr Hraw Htruthy.
  assert (Trace.getTraceId c = None) as Hid.
  { unfold Trace.getTraceId. by rewrite Hvar, Hget, Hhdr. }
  split_and!; [|done|].
  - unfold Trace.getRequestTrace. rewrite Hvar, Hget, Hhdr, Hraw. simpl.
    unfold JS.or_else, JS.the, JS.truthy. simpl.
    rewrite !Htruthy. simpl. by rewrite ?Htruthy.
  - unfold Trace.addRequestSpan. by rewrite Hid.
Qed.

Lemma raw_header_only_context_witness :
  let c :=
    Ctx.mk None None None
      (Some (fun h => if String.eqb h "X-Trace-ID" then Some "1" else None)) in
  Trace.getRequestTrace c (Sample.created 3) = Some (Sample.newTrace "1" 0)
  /\ Trace.getTraceId c = None.
Proof.
  intros c.
  destruct (raw_header_only_context c "1" (Sample.created 3) "u" 0 "n" None
              None eq_refl eq_refl eq_refl eq_refl eq_refl) as (H1 & H2 & _).
  split; [exact H1|exact H2].
Defined.

Section Invariants.
Import Trace.
Implicit Types (traces : Store) (op : Op).

Lemma performCleanup_In now traces e :
  In e (performCleanup now traces) -> In e traces.
Proof.
  intros He. apply evictOldest_In in He. unfold removeStale in He.
  rewrite delete_each_filter in He. by apply List.filter_In in He as [H _].
Qed.

Lemma Forall_In_sub {A} (P : A -> Prop) (l l' : list A) :
  (forall e, In e l' -> In e l) -> Forall P l -> Forall P l'.
Proof.
  intros Hsub Hl. apply List.Forall_forall. intros e He.
  rewrite List.Forall_forall in Hl. by apply Hl, Hsub.
Qed.

(** An operation keeps what holds of every entry, provided it holds of the
    entry the operation writes. *)
Lemma step_Forall (P : string * RequestTrace.t -> Prop) traces op :
  Forall P traces ->
  (forall e, TraceInv.written traces op = Some e -> P e) ->
  Forall P (step traces op).
Proof.
  intros Hall Hw.
  assert (forall uuid now traceId span,
            (forall e,
                match JS.Map_get traceId traces with
                | Some trace =>
                    Some (traceId,
                          with_spans trace
                            (RequestTrace.spans trace
                               ++ [TraceInv.fullSpan uuid now span])%list)
                | None => None
                end = Some e -> P e) ->
            Forall P (Eff.final (addSpan uuid now traceId span) traces))
    as Hpush.
  { intros uuid now traceId span Hp. rewrite addSpan_final.
    destruct (JS.Map_get traceId traces); [|done].
    apply Forall_Map_set; [by apply Hp|done]. }
  assert (forall now traceId spanId metadata error,
            (forall e,
                match JS.Map_get traceId traces with
                | Some trace =>
                    match List.find
                            (fun s => String.eqb (TraceSpan.id s) spanId)
                            (RequestTrace.spans trace) with
                    | Some _ =>
                        Some (traceId,
                              with_spans trace
                                (update_found spanId
                                   (completed_span now metadata error)
                                   (RequestTrace.spans trace)))
                    | None => None
                    end
                | None => None
                end = Some e -> P e) ->
            Forall P
              (Eff.final (completeSpan now traceId spanId metadata error)
                 traces)) as Hfinish.
  { intros now traceId spanId metadata error Hp. rewrite completeSpan_final.
    destruct (JS.Map_get traceId traces) as [trace|]; [|done].
    destruct (List.find _ (RequestTrace.spans trace)); [|done].
    apply Forall_Map_set; [by apply Hp|done]. }
  destruct op; simpl in *.
  - rewrite createTrace_final.
    destruct (JS.Map_get traceId traces); [done|].
    apply Forall_Map_set; [by apply Hw|].
    destruct (nearCapacity traces); [|done].
    apply (Forall_In_sub P traces); [|done].
    intros e. apply performCleanup_In.
  - by apply Hpush.
  - by apply Hfinish.
  - rewrite completeTrace_final.
    destruct (JS.Map_get traceId traces); [|done].
    apply Forall_Map_set; [by apply Hw|done].
  - rewrite addRequestSpan_final.
    destruct (negb (JS.truthy (getTraceId c))); [done|by apply Hpush].
  - rewrite completeRequestSpan_final.
    destruct (negb (JS.truthy (getTraceId c))); [done|by apply Hfinish].
  - apply (Forall_In_sub P traces); [|done].
    intros e. apply performCleanup_In.
  - apply (Forall_In_sub P traces); [|done].
    intros e He. unfold timeoutCallback, JS.Map_delete in He.
    by apply List.filter_In in He as [H _].
  - constructor.
Qed.

Lemma Forall_update_found (P : TraceSpan.t -> Prop) spanId f spans :
  (forall s, P (f s)) -> Forall P spans ->
  Forall P (update_found spanId f spans).
Proof.
  intros Hf. induction 1 as [|s spans Hs Hall IH]; simpl; [constructor|].
  destruct (String.eqb (TraceSpan.id s) spanId); constructor; auto.
Qed.

Lemma completed_span_consistent now metadata error span :
  TraceInv.consistent (completed_span now metadata error span).
Proof.
  unfold TraceInv.consistent, completed_span. simpl.
  destruct (JS.truthy error) eqn:He; [split; [|done]|]; by eexists.
Qed.

Lemma step_consistent traces op :
  TraceInv.plain op = true ->
  TraceInv.all_consistent traces ->
  TraceInv.all_consistent (step traces op).
Proof.
  intros Hplain Hall. apply step_Forall; [done|].
  assert (forall traceId trace,
            JS.Map_get traceId traces = Some trace ->
            Forall TraceInv.consistent (RequestTrace.spans trace)) as Hget.
  { intros traceId trace Hg.
    by apply (Forall_get _ traceId trace traces Hall). }
  intros [k v] Hw. simpl. destruct op; simpl in Hw, Hplain.
  - destruct (JS.Map_get traceId traces); [done|].
    injection Hw as <- <-. constructor.
  - destruct (JS.Map_get traceId traces) as [trace|] eqn:Hg; [|done].
    injection Hw as <- <-. simpl. apply Forall_app. split; [by eapply Hget|].
    constructor; [|constructor]. unfold TraceInv.consistent. simpl.
    by destruct (SpanSpec.endTime span), (SpanSpec.duration span).
  - destruct (JS.Map_get traceId traces) as [trace|] eqn:Hg; [|done].
    destruct (List.find _ _); [|done]. injection Hw as <- <-. simpl.
    apply Forall_update_found;
      [intros; apply completed_span_consistent|by eapply Hget].
  - destruct (JS.Map_get traceId traces) as [trace|] eqn:Hg; [|done].
    injection Hw as <- <-. simpl. by eapply Hget.
  - destruct (negb _); [done|].
    destruct (JS.Map_get _ traces) as [trace|] eqn:Hg; [|done].
    injection Hw as <- <-. simpl. apply Forall_app. split; [by eapply Hget|].
    constructor; [|constructor]. by unfold TraceInv.consistent.
  - destruct (negb _); [done|].
    destruct (JS.Map_get _ traces) as [trace|] eqn:Hg; [|done].
    destruct (List.find _ _); [|done]. injection Hw as <- <-. simpl.
    apply Forall_update_found;
      [intros; apply completed_span_consistent|by eapply Hget].
  - done.
  - done.
  - done.
Qed.

Lemma step_keyed traces op :
  TraceInv.keyed traces -> TraceInv.keyed (step traces op).
Proof.
  intros Hall. apply step_Forall; [done|].
  assert (forall traceId trace,
            JS.Map_get traceId traces = Some trace ->
            RequestTrace.traceId trace = traceId) as Hget.
  { intros traceId trace Hg.
    by apply (Forall_get _ traceId trace traces Hall). }
  intros [k v] Hw. simpl. destruct op; simpl in Hw;
    repeat match type of Hw with
           | (if ?b then _ else _) = _ => destruct b; [done|]
           | match JS.Map_get ?i traces with _ => _ end = _ =>
               let Hg := fresh "Hg" in
               destruct (JS.Map_get i traces) eqn:Hg; try done
           | match List.find ?f ?l with _ => _ end = _ =>
               destruct (List.find f l); try done
           end;
    try done;
    try (injection Hw as <- <-; simpl; by eauto).
Qed.

End Invariants.

(** Extra X12.  Span timing stays consistent with span status: when spans
    are started as [startSpan] does (no end timestamp or duration handed to
    [addSpan]), every run keeps every span of the store consistent, that
    is, without end and duration while ['started'], with both and
    [duration = endTime - startTime] once ['completed'] or ['error'], and
    with a non-empty error message under ['error']. *)
Theorem spans_stay_consistent (ops : list Trace.Op) (traces : Trace.Store) :
  TraceInv.all_consistent traces ->
  Forall (fun op => TraceInv.plain op = true) ops ->
  TraceInv.all_consistent (Trace.run ops traces).
Proof.
  unfold Trace.run. revert traces.
  induction ops as [|op ops IH]; intros traces Hall Hplain; simpl; [done|].
  apply Forall_cons in Hplain as [Hop Hops].
  by apply IH; [apply step_consistent|].
Qed.

Lemma spans_stay_consistent_witness :
  TraceInv.all_consistent
    (Trace.run
       [ Trace.CreateTrace 0 "t1" Sample.metadata;
         Trace.AddRequestSpan "span-1" 1 (Sample.context "t1") "auth" None None;
         Trace.CompleteSpan 2 "t1" "span-1" None (Some "denied");
         Trace.Interval 3 ] []).
Proof.
  apply spans_stay_consistent.
  - constructor.
  - repeat constructor.
Defined.

(** Extra X13.  Every trace is stored under its own identifier: in a store
    where each entry's key is the [traceId] of its trace, every run keeps
    that, so the trace [getTrace] returns for an id carries that id. *)
Theorem traces_stay_keyed (ops : list Trace.Op) (traces : Trace.Store) :
  TraceInv.keyed traces ->
  TraceInv.keyed (Trace.run ops traces)
  /\ (forall traceId trace,
         Trace.getTrace traceId (Trace.run ops traces) = Some trace ->
         RequestTrace.traceId trace = traceId).
Proof.
  intros Hk.
  assert (TraceInv.keyed (Trace.run ops traces)) as Hrun.
  { unfold Trace.run. revert traces Hk.
    induction ops as [|op ops IH]; intros traces Hk; simpl; [done|].
    by apply IH, step_keyed. }
  split; [done|]. intros traceId trace Hg.
  by apply (Forall_get _ traceId trace _ Hrun).
Qed.

Lemma traces_stay_keyed_witness :
  TraceInv.keyed (Trace.run (Sample.creates 3) []).
Proof.
  exact (proj1 (traces_stay_keyed (Sample.creates 3) [] (Forall_nil_2 _))).
Defined.

(* ===================================================================== *)
(** * Further properties of the logging service *)
(* ===================================================================== *)

Section ServiceFacts.
Import Runtime Logging.
Implicit Types (w : World).

Lemma getState_run now sessionId w :
  getState now sessionId w
  = match sessionStats w !! sessionId with
    | Some state => (inr state, w)
    | None =>
        (inr (zeroed sessionId "" now),
         mkWorld (<[sessionId := zeroed sessionId "" now]> (sessionStats w))
           (submitted w) (console w))
    end.
Proof.
  unfold getState. eff_unfold. unfold get_sessions, put_sessions. simpl.
  by destruct (sessionStats w !! sessionId).
Qed.

Lemma initializeSession_run now sessionId userId w :
  initializeSession now sessionId userId w
  = (inr tt,
     mkWorld
       (<[sessionId :=
            let '(n, e, d) := counters (sessionStats w !! sessionId) in
            LoggingState.mk sessionId userId now now n e d]> (sessionStats w))
       (submitted w) (console w)).
Proof.
  unfold initializeSession. eff_unfold. rewrite getState_run.
  unfold get_sessions, put_sessions.
  destruct (sessionStats w !! sessionId) as [state|] eqn:Hs; simpl.
  - done.
  - by rewrite insert_insert_eq.
Qed.

Lemma clearSession_run now sessionId w :
  clearSession now sessionId w
  = (inr tt,
     mkWorld (<[sessionId := zeroed sessionId "" now]> (sessionStats w))
       (submitted w) (console w)).
Proof. unfold clearSession. eff_unfold. by unfold get_sessions, put_sessions. Qed.

Lemma getSessionStats_final now sessionId w :
  Eff.final (getSessionStats now sessionId) w
  = Eff.final (getState now sessionId) w.
Proof.
  unfold getSessionStats, Eff.final. eff_unfold.
  by destruct (getState now sessionId w) as [[e|state] w'].
Qed.

End ServiceFacts.

(** Extra X14.  [initializeSession] binds the session to the user and
    restarts both timestamps without clearing the counters: the aggregate
    afterwards has the given user id, [startedAt = lastActivity = now] and
    the calls, errors and duration counted so far (all 0 for a session never
    seen); every other session is untouched, and a later [getSessionStats]
    reports those counters and measures the session from the new start. *)
Theorem initializeSession_keeps_counters (now later : Z)
  (sessionId userId : string) (w : Runtime.World) :
  let w' := Eff.final (Logging.initializeSession now sessionId userId) w in
  let '(n, e, d) := Logging.counters (Runtime.sessionStats w !! sessionId) in
  Eff.outcome (Logging.initializeSession now sessionId userId) w = inr tt
  /\ Runtime.sessionStats w' !! sessionId
     = Some (LoggingState.mk sessionId userId now now n e d)
  /\ (forall other, other <> sessionId ->
        Runtime.sessionStats w' !! other = Runtime.sessionStats w !! other)
  /\ (exists stats,
         Eff.outcome (Logging.getSessionStats later sessionId) w' = inr stats
         /\ SessionStats.totalCalls stats = n
         /\ SessionStats.totalErrors stats = e
         /\ SessionStats.totalDuration stats = d
         /\ SessionStats.sessionDuration stats = later - now).
Proof.
  unfold Eff.outcome, Eff.final. rewrite initializeSession_run. simpl.
  destruct (Logging.counters (Runtime.sessionStats w !! sessionId))
    as [[n e] d].
  split_and!.
  - done.
  - apply lookup_insert_eq.
  - intros other Hne. by apply lookup_insert_ne.
  - unfold Logging.getSessionStats. eff_unfold. rewrite getState_run. simpl.
    rewrite lookup_insert_eq. eexists. split; [reflexivity|]. by simpl.
Qed.

(** Extra X15.  [clearSession] replaces the aggregate by a zeroed one that
    has lost its user: a later [getSessionStats] reports no calls, no
    errors, no duration, a zero average and error rate and the time since
    the reset; the other sessions are untouched; and the next [logCall] of
    that session, whatever user it names, counts on the zeroed aggregate
    and leaves its user id empty. *)
Theorem clearSession_resets (sink : list LogEntry.t -> option JS.Err)
  (now later : Z) (sessionId : string) (w : Runtime.World) :
  let w' := Eff.final (Logging.clearSession now sessionId) w in
  Eff.outcome (Logging.getSessionStats later sessionId) w'
  = inr (SessionStats.mk 0 0 0 (inject_Z 0) (inject_Z 0) (later - now))
  /\ (forall other, other <> sessionId ->
        Runtime.sessionStats w' !! other = Runtime.sessionStats w !! other)
  /\ (forall r callData,
         CallData.sessionId callData = sessionId ->
         Runtime.sessionStats
           (Eff.final (Logging.logCall sink r callData) w') !! sessionId
         = Some (LoggingState.mk sessionId "" now (Logging.stamp r) 1
                   (if Logging.carriesError callData then 1 else 0)
                   (CallData.duration callData))).
Proof.
  unfold Eff.outcome, Eff.final. rewrite clearSession_run. simpl.
  split_and!.
  - unfold Logging.getSessionStats. eff_unfold. rewrite getState_run. simpl.
    by rewrite lookup_insert_eq.
  - intros other Hne. by apply lookup_insert_ne.
  - intros r callData Hsid. rewrite logCall_run. simpl. rewrite Hsid.
    rewrite lookup_insert_eq. f_equal.
    unfold Logging.prior, Logging.recorded, Logging.carriesError. simpl.
    rewrite lookup_insert_eq. simpl.
    by destruct (JS.truthy (CallData.error callData)).
Qed.

(** Extra X16.  On a session that has an aggregate the two reads are
    read-only: [getState] returns the stored aggregate and
    [getSessionStats] its figures, and neither changes the session map, the
    sink or the console. *)
Theorem reads_of_known_session (now : Z) (sessionId : string)
  (state : LoggingState.t) (w : Runtime.World) :
  Runtime.sessionStats w !! sessionId = Some state ->
  Logging.getState now sessionId w = (inr state, w)
  /\ Eff.final (Logging.getSessionStats now sessionId) w = w
  /\ (exists stats,
         Eff.outcome (Logging.getSessionStats now sessionId) w = inr stats
         /\ SessionStats.totalCalls stats = LoggingState.totalCalls state
         /\ SessionStats.totalErrors stats = LoggingState.totalErrors state
         /\ SessionStats.totalDuration stats
            = LoggingState.totalDuration state
         /\ SessionStats.sessionDuration stats
            = now - LoggingState.startedAt state).
Proof.
  intros Hs.
  assert (Logging.getState now sessionId w = (inr state, w)) as Hget
    by (by rewrite getState_run, Hs).
  split_and!.
  - exact Hget.
  - rewrite getSessionStats_final. unfold Eff.final. by rewrite Hget.
  - unfold Logging.getSessionStats, Eff.outcome. eff_unfold. rewrite Hget.
    eexists. split; [reflexivity|]. by simpl.
Qed.

Lemma reads_of_known_session_witness :
  let state := LoggingState.mk "s1" "u1" 10 20 3 1 90 in
  let w := Runtime.mkWorld {["s1" := state]} [] [] in
  Runtime.sessionStats w !! "s1" = Some state
  /\ Logging.getState 99 "s1" w = (inr state, w).
Proof.
  intros state w. split; [reflexivity|].
  exact (proj1 (reads_of_known_session 99 "s1" state w eq_refl)).
Defined.

(** Extra X17.  The identity of an aggregate is fixed by its creation: a
    [logCall] on a session that already has an aggregate keeps the
    aggregate's session id, user id and start time, whatever user the call
    names, and sets the last activity to the call's timestamp. *)
Theorem logCall_keeps_identity (sink : list LogEntry.t -> option JS.Err)
  (r : Logging.Readings) (callData : CallData.t) (state : LoggingState.t)
  (w : Runtime.World) :
  Runtime.sessionStats w !! CallData.sessionId callData = Some state ->
  exists after,
    Runtime.sessionStats (Eff.final (Logging.logCall sink r callData) w)
      !! CallData.sessionId callData = Some after
    /\ LoggingState.sessionId after = LoggingState.sessionId state
    /\ LoggingState.userId after = LoggingState.userId state
    /\ LoggingState.startedAt after = LoggingState.startedAt state
    /\ LoggingState.lastActivity after = Logging.stamp r.
Proof.
  intros Hs. unfold Eff.final. rewrite logCall_run. simpl.
  rewrite lookup_insert_eq. eexists. split; [reflexivity|].
  unfold Logging.prior. rewrite Hs. by simpl.
Qed.

Lemma logCall_keeps_identity_witness :
  let state := LoggingState.mk "s1" "alice" 10 20 3 1 90 in
  let w := Runtime.mkWorld {["s1" := state]} [] [] in
  let callData := Sample.call "s1" "bob" "mail.send" 5 None in
  Runtime.sessionStats w !! CallData.sessionId callData = Some state
  /\ exists after,
       Runtime.sessionStats
         (Eff.final (Logging.logCall Sample.accepting (Sample.readings 30)
                       callData) w) !! "s1" = Some after
       /\ LoggingState.userId after = "alice".
Proof.
  intros state w callData. split; [reflexivity|].
  destruct (logCall_keeps_identity Sample.accepting (Sample.readings 30)
              callData state w eq_refl) as (after & H1 & _ & H2 & _).
  exists after. split; [exact H1|exact H2].
Defined.

Section Soundness.
Import Runtime Logging.
Variable sink : list LogEntry.t -> option JS.Err.
Implicit Types (w : World).







End Soundness.



(* ===================================================================== *)
(** * Further properties of the exporter *)
(* ===================================================================== *)

(** Extra X19.  [logSingleCall] returns normally on every call and every
    sink, never touches the session map, and hands the sink exactly one
    body holding exactly one entry, except for the logging procedures where
    it hands over nothing; the console gets one line exactly when the sink
    rejected that body. *)
Theorem logSingleCall_exports_once (sink : list LogEntry.t -> option JS.Err)
  (uuid1 uuid2 sessionId userId : string) (log : TRPCCallLog.t)
  (w : Runtime.World) :
  let entry := Datadog.logEntry uuid1 uuid2 sessionId userId log in
  let w' :=
    Eff.final (Datadog.logSingleCall sink uuid1 uuid2 sessionId userId log) w in
  Eff.outcome (Datadog.logSingleCall sink uuid1 uuid2 sessionId userId log) w
  = inr tt
  /\ Runtime.sessionStats w' = Runtime.sessionStats w
  /\ Runtime.submitted w'
     = (if Datadog.isLoggingProcedure (TRPCCallLog.procedure log)
        then Runtime.submitted w
        else Runtime.submitted w ++ [[entry]])%list
  /\ Runtime.console w'
     = (if Datadog.isLoggingProcedure (TRPCCallLog.procedure log)
        then Runtime.console w
        else match sink [entry] with
             | Some e =>
                 Runtime.console w
                   ++ [Runtime.console_error Datadog.failure_text e]
             | None => Runtime.console w
             end)%list.
Proof.
  intros entry w'. unfold w', entry, Datadog.logSingleCall, Eff.outcome,
    Eff.final.
  destruct (Datadog.isLoggingProcedure (TRPCCallLog.procedure log)).
  - by destruct w.
  - eff_unfold. unfold Datadog.submitLog, Runtime.log_error. simpl.
    by destruct (sink _).
Qed.

(** Extra X20.  The severity of an entry follows the error first and the
    duration second: ['error'] exactly when the call's error is truthy,
    however fast the call; otherwise ['warn'] exactly from 500 ms on and
    ['info'] below; the performance bucket is ['fast'] below 100 ms,
    ['normal'] from 100 to 499 and ['slow'] from 500 on; and the error
    fields are present exactly when the error flag is set, with the call's
    message. *)
Theorem severity_of_entry (uuid1 uuid2 sessionId userId : string)
  (log : TRPCCallLog.t) :
  let entry := Datadog.logEntry uuid1 uuid2 sessionId userId log in
  let props := LogEntry.additionalProperties entry in
  let d := TRPCCallLog.duration log in
  (LogEntry.status entry = level_error <-> Datadog.hasError log = true)
  /\ (LogEntry.status entry = level_warn
      <-> Datadog.hasError log = false /\ 500 <= d)
  /\ (LogEntry.status entry = level_info
      <-> Datadog.hasError log = false /\ d < 500)
  /\ (AdditionalProperties.performance_category props = fast <-> d < 100)
  /\ (AdditionalProperties.performance_category props = normal
      <-> 100 <= d /\ d < 500)
  /\ (AdditionalProperties.performance_category props = slow <-> 500 <= d)
  /\ AdditionalProperties.has_error props = Datadog.hasError log
  /\ AdditionalProperties.error_fields props
     = (if Datadog.hasError log
        then Some (JS.the (TRPCCallLog.error log), "trpc_error")
        else None).
Proof.
  intros entry props d. unfold entry, props, Datadog.logEntry. simpl.
  unfold Datadog.logLevel, Datadog.performanceCategory. fold d.
  destruct (Datadog.hasError log);
    destruct (Z.ltb_spec d 100); destruct (Z.ltb_spec d 500);
    split_and!; try done; split; try done; try lia;
    intros; try (split; [done|lia]); try (exfalso; lia);
    match goal with H : _ /\ _ |- _ => destruct H; try done; try lia end.
Qed.

(** ** User-agent classification, in general *)

Section RegexFacts.
Import Regex.

Lemma span_class_all cls s : UA.all cls (span_class cls s) = true.
Proof.
  induction s as [|a s IH]; simpl; [done|].
  destruct (cls a) eqn:Ha; simpl; [|done]. by rewrite Ha, IH.
Qed.

Lemma match_here_group literal cls s g :
  match_here (Group literal cls) s = Some g ->
  exists v, g = Some v /\ JS.truthy_string v = true /\ UA.all cls v = true.
Proof.
  simpl. destruct (strip_prefix_ci literal s) as [rest|]; [|done].
  destruct (JS.truthy_string (span_class cls rest)) eqn:Ht; [|done].
  intros [= <-]. eexists. split; [done|]. split; [done|].
  apply span_class_all.
Qed.

Lemma exec_group literal cls s g :
  exec (Group literal cls) s = Some g ->
  exists v, g = Some v /\ JS.truthy_string v = true /\ UA.all cls v = true.
Proof.
  induction s as [|a s IH]; intros H.
  - unfold exec in H.
    destruct (match_here (Group literal cls) "") eqn:Hm; [|done].
    injection H as <-. by apply (match_here_group literal cls "").
  - change (exec (Group literal cls) (String a s))
      with (match match_here (Group literal cls) (String a s) with
            | Some m => Some m
            | None => exec (Group literal cls) s
            end) in H.
    destruct (match_here (Group literal cls) (String a s)) eqn:Hm.
    + injection H as <-. by apply (match_here_group literal cls (String a s)).
    + by apply IH.
Qed.

Lemma exec_alt literals s g : exec (Alt literals) s = Some g -> g = None.
Proof.
  induction s as [|a s IH]; intros H.
  - unfold exec in H. simpl in H. destruct (existsb _ _); by inversion H.
  - change (exec (Alt literals) (String a s))
      with (match match_here (Alt literals) (String a s) with
            | Some m => Some m
            | None => exec (Alt literals) s
            end) in H.
    destruct (match_here (Alt literals) (String a s)) eqn:Hm.
    + injection H as <-. simpl in Hm. destruct (existsb _ _); by inversion Hm.
    + by apply IH.
Qed.

Lemma replace_underscores_truthy v :
  JS.truthy_string (replace_underscores v) = JS.truthy_string v.
Proof. by destruct v. Qed.

Lemma replace_underscores_all v :
  UA.all digits_underscore_dot v = true ->
  UA.all digits_dot (replace_underscores v) = true.
Proof.
  induction v as [|a v IH]; simpl; [done|].
  intros H. apply andb_true_iff in H as [Ha Hv]. rewrite (IH Hv), andb_true_r.
  unfold digits_underscore_dot, digits_dot in *.
  destruct (Ascii.eqb_spec a "_") as [->|Hne]; [done|].
  by rewrite orb_false_r in Ha.
Qed.

Lemma all_weaken (cls cls' : ascii -> bool) v :
  (forall a, cls a = true -> cls' a = true) ->
  UA.all cls v = true -> UA.all cls' v = true.
Proof.
  intros Hsub. induction v as [|a v IH]; simpl; [done|].
  intros H. apply andb_true_iff in H as [Ha Hv].
  by rewrite (Hsub a Ha), (IH Hv).
Qed.

End RegexFacts.

Section ParseFacts.
Import Datadog.

(** What the three loops of [parseUserAgent] leave in the result. *)
Lemma parseUserAgent_Some userAgent info :
  parseUserAgent userAgent = Some info ->
  exists ua,
    userAgent = Some ua /\ JS.truthy_string ua = true
    /\ DeviceInfo.user_agent info = ua
    /\ (DeviceInfo.browser info, DeviceInfo.browser_version info)
       = match first_match browsers ua with
         | Some (name, g) => (name, default "" g)
         | None => ("unknown", "")
         end
    /\ (DeviceInfo.operating_system info, DeviceInfo.os_version info)
       = match first_match os ua with
         | Some (name, g) =>
             (name, match g with
                    | Some v => Regex.replace_underscores v
                    | None => ""
                    end)
         | None => ("unknown", "")
         end
    /\ DeviceInfo.device_type info = default "unknown" (first_test devices ua).
Proof.
  unfold parseUserAgent. destruct userAgent as [ua|]; [|done].
  destruct (JS.truthy_string ua) eqn:Ht; cbn [negb]; [|done].
  intros H. exists ua.
  destruct (first_match browsers ua) as [[b g]|];
    destruct (first_match os ua) as [[o g']|];
    injection H as <-; repeat split; (exact Ht || reflexivity).
Qed.

Lemma first_match_In table ua name g :
  first_match table ua = Some (name, g) ->
  exists regex, In (name, regex) table /\ Regex.exec regex ua = Some g.
Proof.
  induction table as [|[n re] table IH]; simpl; [done|].
  destruct (Regex.exec re ua) as [m|] eqn:He.
  - intros [= <- <-]. exists re. split; [by left|done].
  - intros H. destruct (IH H) as (regex & Hin & Hex).
    exists regex. split; [by right|done].
Qed.

Lemma first_test_In table ua name :
  first_test table ua = Some name -> In name (map fst table).
Proof.
  induction table as [|[n re] table IH]; simpl; [done|].
  destruct (Regex.test re ua); [intros [= <-]; by left|].
  intros H. right. by apply IH.
Qed.

End ParseFacts.

(** Extra X21.  [parseUserAgent] returns the empty object exactly for a
    missing or empty user agent; otherwise its result echoes the user agent
    and names the browser, the operating system and the device type from
    three closed lists. *)
Theorem parseUserAgent_ranges (userAgent : option string) :
  (Datadog.parseUserAgent userAgent = None <-> JS.truthy userAgent = false)
  /\ (forall info,
         Datadog.parseUserAgent userAgent = Some info ->
         Some (DeviceInfo.user_agent info) = userAgent
         /\ In (DeviceInfo.browser info)
               ["chrome"; "firefox"; "safari"; "edge"; "unknown"]
         /\ In (DeviceInfo.operating_system info)
               ["windows"; "macos"; "linux"; "android"; "ios"; "unknown"]
         /\ In (DeviceInfo.device_type info)
               ["mobile"; "tablet"; "desktop"; "unknown"]).
Proof.
  split.
  - split; [|apply parseUserAgent_absent].
    unfold Datadog.parseUserAgent.
    destruct userAgent as [ua|]; cbn [JS.truthy]; [|done].
    destruct (JS.truthy_string ua); cbn [negb]; [|done].
    destruct (Datadog.first_match Datadog.browsers ua) as [[b g]|];
      by destruct (Datadog.first_match Datadog.os ua) as [[o g']|].
  - intros info H.
    destruct (parseUserAgent_Some _ _ H)
      as (ua & -> & _ & Hua & Hb & Ho & Hd).
    split_and!.
    + by rewrite Hua.
    + destruct (Datadog.first_match Datadog.browsers ua) as [[b g]|] eqn:Hm.
      * destruct (first_match_In _ _ _ _ Hm) as (re & Hin & _).
        injection Hb as -> _. simpl in Hin.
        destruct Hin as [[= <- _]|[[= <- _]|[[= <- _]|[[= <- _]|[]]]]];
          simpl; tauto.
      * injection Hb as -> _. simpl. tauto.
    + destruct (Datadog.first_match Datadog.os ua) as [[o g]|] eqn:Hm.
      * destruct (first_match_In _ _ _ _ Hm) as (re & Hin & _).
        injection Ho as -> _. simpl in Hin.
        destruct Hin
          as [[= <- _]|[[= <- _]|[[= <- _]|[[= <- _]|[[= <- _]|[]]]]]];
          simpl; tauto.
      * injection Ho as -> _. simpl. tauto.
    + rewrite Hd.
      destruct (Datadog.first_test Datadog.devices ua) as [d|] eqn:Hm; simpl.
      * apply first_test_In in Hm. simpl in Hm. tauto.
      * tauto.
Qed.

(** Extra X22.  The versions [parseUserAgent] extracts are made of digits
    and dots only (underscores of the operating-system version are turned
    into dots); the browser version is empty exactly when the browser is
    unknown, and the operating-system version is empty exactly when the
    system is unknown or Linux. *)
Theorem parseUserAgent_versions (userAgent : option string)
  (info : DeviceInfo.t) :
  Datadog.parseUserAgent userAgent = Some info ->
  UA.all Regex.digits_dot (DeviceInfo.browser_version info) = true
  /\ UA.all Regex.digits_dot (DeviceInfo.os_version info) = true
  /\ (DeviceInfo.browser_version info = ""
      <-> DeviceInfo.browser info = "unknown")
  /\ (DeviceInfo.os_version info = ""
      <-> DeviceInfo.operating_system info = "unknown"
          \/ DeviceInfo.operating_system info = "linux").
Proof.
  intros H.
  destruct (parseUserAgent_Some _ _ H) as (ua & -> & _ & _ & Hb & Ho & _).
  assert (forall v, JS.truthy_string v = true -> v <> "") as Hne
    by (by intros [|? ?]).
  assert (UA.all Regex.digits_dot (DeviceInfo.browser_version info) = true
          /\ (DeviceInfo.browser_version info = ""
              <-> DeviceInfo.browser info = "unknown")) as [Hb1 Hb2].
  { destruct (Datadog.first_match Datadog.browsers ua) as [[b g]|] eqn:Hm.
    - destruct (first_match_In _ _ _ _ Hm) as (re & Hin & Hex).
      injection Hb as -> ->. simpl in Hin.
      destruct Hin as [[= <- <-]|[[= <- <-]|[[= <- <-]|[[= <- <-]|[]]]]];
        destruct (exec_group _ _ _ _ Hex) as (v & -> & Ht & Hall); simpl;
        (split; [done|]); split; intros Hv; try done; by apply Hne in Ht.
    - injection Hb as -> ->. done. }
  assert (UA.all Regex.digits_dot (DeviceInfo.os_version info) = true
          /\ (DeviceInfo.os_version info = ""
              <-> DeviceInfo.operating_system info = "unknown"
                  \/ DeviceInfo.operating_system info = "linux"))
    as [Ho1 Ho2].
  { destruct (Datadog.first_match Datadog.os ua) as [[o g]|] eqn:Hm.
    - destruct (first_match_In _ _ _ _ Hm) as (re & Hin & Hex).
      injection Ho as -> ->. simpl in Hin.
      destruct Hin
        as [[= <- <-]|[[= <- <-]|[[= <- <-]|[[= <- <-]|[[= <- <-]|[]]]]]].
      + destruct (exec_group _ _ _ _ Hex) as (v & -> & Ht & Hall).
        split.
        * apply replace_underscores_all.
          apply (all_weaken Regex.digits_dot); [|done].
          intros a Ha. unfold Regex.digits_dot, Regex.digits_underscore_dot in *.
          apply orb_true_iff in Ha as [Ha|Ha]; rewrite Ha; [done|].
          by rewrite !orb_true_r.
        * rewrite <- replace_underscores_truthy in Ht. apply Hne in Ht.
          split; [done|]. intros [?|?]; discriminate.
      + destruct (exec_group _ _ _ _ Hex) as (v & -> & Ht & Hall).
        split; [by apply replace_underscores_all|].
        rewrite <- replace_underscores_truthy in Ht. apply Hne in Ht.
        split; [done|]. intros [?|?]; discriminate.
      + rewrite (exec_alt _ _ _ Hex). split; [done|]. split; auto.
      + destruct (exec_group _ _ _ _ Hex) as (v & -> & Ht & Hall).
        split.
        * apply replace_underscores_all.
          apply (all_weaken Regex.digits_dot); [|done].
          intros a Ha. unfold Regex.digits_dot, Regex.digits_underscore_dot in *.
          apply orb_true_iff in Ha as [Ha|Ha]; rewrite Ha; [done|].
          by rewrite !orb_true_r.
        * rewrite <- replace_underscores_truthy in Ht. apply Hne in Ht.
          split; [done|]. intros [?|?]; discriminate.
      + destruct (exec_group _ _ _ _ Hex) as (v & -> & Ht & Hall).
        split.
        * apply replace_underscores_all.
          apply (all_weaken Regex.digits_underscore); [|done].
          intros a Ha.
          unfold Regex.digits_underscore, Regex.digits_underscore_dot in *.
          by rewrite Ha.
        * rewrite <- replace_underscores_truthy in Ht. apply Hne in Ht.
          split; [done|]. intros [?|?]; discriminate.
    - injection Ho as -> ->. split; [done|]. split; auto. }
  done.
Qed.

Lemma parseUserAgent_versions_witness :
  let ua := "Mozilla/5.0 (iPhone; CPU iPhone OS 16_5 like Mac OS X) Version/16.5 Mobile/15E148 Safari/604.1" in
  Datadog.parseUserAgent (Some ua)
  = Some (DeviceInfo.mk "safari" "604.1" "ios" "16.5" "mobile" ua)
  /\ UA.all Regex.digits_dot "16.5" = true.
Proof.
  intros ua. split; [reflexivity|].
  exact (proj1 (proj2
    (parseUserAgent_versions (Some ua)
       (DeviceInfo.mk "safari" "604.1" "ios" "16.5" "mobile" ua) eq_refl))).
Defined.

Section Priority.
Import Regex.

Lemma exec_unfold r s :
  exec r s
  = match match_here r s with
    | Some m => Some m
    | None =>
        match s with
        | EmptyString => None
        | String _ s' => exec r s'
        end
    end.
Proof. by destruct s. Qed.

Lemma match_here_alt_mono literal literals s :
  In literal literals ->
  is_Some (match_here (Alt [literal]) s) ->
  is_Some (match_here (Alt literals) s).
Proof.
  intros Hin. simpl.
  destruct (strip_prefix_ci literal s) as [rest|] eqn:Hp; simpl;
    [|by intros [? ?]].
  intros _.
  assert (existsb (fun p => bool_decide (is_Some (strip_prefix_ci p s)))
            literals = true) as ->; [|by eexists].
  apply existsb_exists. exists literal. split; [done|].
  apply bool_decide_eq_true. by rewrite Hp.
Qed.

(** A literal found alone is found among alternatives. *)
Lemma contains_alt literal literals s :
  In literal literals ->
  UA.contains literal s = true -> test (Alt literals) s = true.
Proof.
  intros Hin. unfold UA.contains, test.
  rewrite !bool_decide_eq_true.
  induction s as [|a s IH]; rewrite (exec_unfold (Alt [literal])),
    (exec_unfold (Alt literals)).
  - pose proof (match_here_alt_mono literal literals "" Hin) as Hm.
    destruct (match_here (Alt [literal]) ""); [|by intros [? ?]].
    intros _. destruct Hm as [m ->]; by eexists.
  - pose proof (match_here_alt_mono literal literals (String a s) Hin) as Hm.
    destruct (match_here (Alt [literal]) (String a s)).
    + intros _. destruct Hm as [m ->]; by eexists.
    + intros Hs. destruct (match_here (Alt literals) (String a s));
        [by eexists|by apply IH].
Qed.

End Priority.

(** Extra X23.  The first pattern that matches wins, in the order of the
    tables: a user agent with a [Chrome/<version>] token is a Chrome
    whatever else it names (Edge included); one that mentions Linux is never
    classified as Android or iOS, nor left unknown; and one that mentions
    Android is a mobile device, tablets included. *)
Theorem parseUserAgent_first_match_wins (ua : string) (info : DeviceInfo.t) :
  Datadog.parseUserAgent (Some ua) = Some info ->
  (is_Some (Regex.exec (Regex.Group "Chrome/" Regex.digits_dot) ua) ->
   DeviceInfo.browser info = "chrome")
  /\ (UA.contains "Linux" ua = true ->
      In (DeviceInfo.operating_system info) ["windows"; "macos"; "linux"])
  /\ (UA.contains "Android" ua = true ->
      DeviceInfo.device_type info = "mobile").
Proof.
  intros H.
  destruct (parseUserAgent_Some _ _ H) as (ua' & [= <-] & _ & _ & Hb & Ho & Hd).
  split_and!.
  - intros [m Hm]. unfold Datadog.browsers, Datadog.first_match in Hb.
    rewrite Hm in Hb. by injection Hb as -> _.
  - intros Hl. unfold UA.contains, Regex.test in Hl.
    apply bool_decide_eq_true in Hl as [m Hm].
    unfold Datadog.os, Datadog.first_match in Ho.
    destruct (Regex.exec (Regex.Group "Windows NT " Regex.digits_dot) ua);
      [injection Ho as -> _; simpl; tauto|].
    destruct (Regex.exec (Regex.Group "Mac OS X " Regex.digits_underscore_dot)
                ua); [injection Ho as -> _; simpl; tauto|].
    rewrite Hm in Ho. injection Ho as -> _. simpl. tauto.
  - intros Ha. rewrite Hd. unfold Datadog.devices, Datadog.first_test.
    rewrite (contains_alt "Android" ["Mobile"; "Android"; "iPhone"] ua);
      [done|simpl; tauto|done].
Qed.

Lemma parseUserAgent_first_match_wins_witness :
  let ua := "Mozilla/5.0 (Linux; Android 13; SM-X700) AppleWebKit/537.36 Chrome/120.0.0.0 Safari/537.36 Edg/120.0" in
  Datadog.parseUserAgent (Some ua)
  = Some (DeviceInfo.mk "chrome" "120.0.0.0" "linux" "" "mobile" ua)
  /\ (UA.contains "Android" ua = true -> "mobile" = "mobile").
Proof.
  intros ua. split; [reflexivity|].
  exact (proj2 (proj2
    (parseUserAgent_first_match_wins ua
       (DeviceInfo.mk "chrome" "120.0.0.0" "linux" "" "mobile" ua) eq_refl))).
Defined.

Section CaseFolding.
Import Regex.

Lemma lower_idem a : lower (lower a) = lower a.
Proof. destruct a as [[] [] [] [] [] [] [] []]; reflexivity. Qed.

Lemma eq_ci_lower a b : eq_ci a (lower b) = eq_ci a b.
Proof. unfold eq_ci. by rewrite lower_idem. Qed.

Lemma strip_prefix_ci_lower p s :
  strip_prefix_ci p (UA.lower_string s) = UA.lower_string <$> strip_prefix_ci p s.
Proof.
  revert s. induction p as [|a p IH]; intros s; simpl; [done|].
  destruct s as [|b s]; simpl; [done|].
  rewrite eq_ci_lower. by destruct (eq_ci a b).
Qed.

Lemma digits_dot_caseless : UA.caseless digits_dot.
Proof. intros a. destruct a as [[] [] [] [] [] [] [] []]; by split. Qed.

Lemma digits_underscore_dot_caseless : UA.caseless digits_underscore_dot.
Proof. intros a. destruct a as [[] [] [] [] [] [] [] []]; by split. Qed.

Lemma digits_underscore_caseless : UA.caseless digits_underscore.
Proof. intros a. destruct a as [[] [] [] [] [] [] [] []]; by split. Qed.

Lemma span_class_lower cls s :
  UA.caseless cls -> span_class cls (UA.lower_string s) = span_class cls s.
Proof.
  intros Hc. induction s as [|a s IH]; simpl; [done|].
  destruct (Hc a) as [-> Hfix].
  destruct (cls a) eqn:Ha; [|done]. by rewrite IH, Hfix.
Qed.

Lemma match_here_lower r s :
  UA.caseless_regex r -> match_here r (UA.lower_string s) = match_here r s.
Proof.
  intros Hr. destruct r as [literals|literal cls]; simpl.
  - assert (existsb (fun p => bool_decide
                       (is_Some (strip_prefix_ci p (UA.lower_string s))))
                    literals
            = existsb (fun p => bool_decide (is_Some (strip_prefix_ci p s)))
                      literals) as ->; [|done].
    clear Hr. induction literals as [|p literals IH]; simpl; [done|].
    rewrite IH, strip_prefix_ci_lower.
    destruct (strip_prefix_ci p s); reflexivity.
  - rewrite strip_prefix_ci_lower.
    destruct (strip_prefix_ci literal s) as [rest|]; simpl; [|done].
    by rewrite span_class_lower.
Qed.

Lemma exec_lower r s :
  UA.caseless_regex r -> exec r (UA.lower_string s) = exec r s.
Proof.
  intros Hr. induction s as [|a s IH].
  - reflexivity.
  - rewrite (exec_unfold r (String a s)).
    change (UA.lower_string (String a s))
      with (String (lower a) (UA.lower_string s)).
    rewrite (exec_unfold r (String (lower a) (UA.lower_string s))).
    change (String (lower a) (UA.lower_string s))
      with (UA.lower_string (String a s)).
    rewrite match_here_lower by done.
    destruct (match_here r (String a s)); [done|]. simpl. exact IH.
Qed.

Lemma first_match_lower table ua :
  Forall (fun e => UA.caseless_regex (snd e)) table ->
  Datadog.first_match table (UA.lower_string ua)
  = Datadog.first_match table ua.
Proof.
  induction 1 as [|[n re] table Hre Htable IH]; simpl; [done|].
  rewrite exec_lower by done. by rewrite IH.
Qed.

Lemma first_test_lower table ua :
  Forall (fun e => UA.caseless_regex (snd e)) table ->
  Datadog.first_test table (UA.lower_string ua)
  = Datadog.first_test table ua.
Proof.
  induction 1 as [|[n re] table Hre Htable IH]; simpl; [done|].
  unfold test. rewrite exec_lower by done. by rewrite IH.
Qed.

End CaseFolding.

Ltac caseless_table :=
  repeat (apply List.Forall_cons;
          [first [ exact I
                 | apply digits_dot_caseless
                 | apply digits_underscore_dot_caseless
                 | apply digits_underscore_caseless ]|]);
  apply List.Forall_nil.

(** Extra X24.  The classification ignores the case of ASCII letters, as
    every pattern carries the [i] flag: a user agent and the same string in
    small letters get the same browser, versions, operating system and
    device type (only the echoed string differs). *)
Theorem parseUserAgent_ignores_case (ua : string) :
  UA.classification <$> Datadog.parseUserAgent (Some (UA.lower_string ua))
  = UA.classification <$> Datadog.parseUserAgent (Some ua).
Proof.
  unfold Datadog.parseUserAgent.
  assert (JS.truthy_string (UA.lower_string ua) = JS.truthy_string ua) as ->
    by (by destruct ua).
  destruct (JS.truthy_string ua); cbn [negb]; [|done].
  rewrite (first_match_lower Datadog.browsers),
    (first_match_lower Datadog.os), (first_test_lower Datadog.devices).
  - destruct (Datadog.first_match Datadog.browsers ua) as [[b g]|];
      by destruct (Datadog.first_match Datadog.os ua) as [[o g']|].
  - caseless_table.
  - caseless_table.
  - caseless_table.
Qed.

Example parseUserAgent_upper_case :
  UA.classification
    <$> Datadog.parseUserAgent (Some "MOZILLA/5.0 (WINDOWS NT 10.0) FIREFOX/121.0")
  = Some ("firefox", "121.0", "windows", "10.0", "desktop").
Proof. reflexivity. Qed.

(* ===================================================================== *)
(** * The middleware of [privateProcedure] and the logging router *)
(* ===================================================================== *)

Ltac trpc_unfold :=
  unfold mbind, mret, T_bind, T_ret, TRPC.bind, TRPC.ret, TRPC.throw,
    TRPC.on_traces, TRPC.on_world, TRPC.raise.

Section MiddlewareFacts.
Import Trace TRPC.

Lemma Map_set_set {V} k (v1 v2 : V) (m : list (string * V)) :
  JS.Map_set k v2 (JS.Map_set k v1 m) = JS.Map_set k v2 m.
Proof.
  induction m as [|[a x] m IH]; simpl.
  - by rewrite String.eqb_refl.
  - destruct (String.eqb a k) eqn:Ha; simpl.
    + by rewrite String.eqb_refl.
    + by rewrite Ha, IH.
Qed.

(** A span started through the context and completed through it: the
    trace gets one more span, completed. *)
Lemma traced_span c traceId traces trace uuid started finished name md tags
  md' error :
  getTraceId c = Some traceId ->
  JS.truthy_string traceId = true ->
  getTrace traceId traces = Some trace ->
  Forall (fun s => TraceSpan.id s <> uuid) (RequestTrace.spans trace) ->
  let span :=
    TraceSpan.mk uuid name started None None SpanStatus.started md None tags in
  let traces1 :=
    JS.Map_set traceId
      (with_spans trace (RequestTrace.spans trace ++ [span])%list) traces in
  addRequestSpan uuid started c name md tags traces = (inr (Some span), traces1)
  /\ completeRequestSpan finished c uuid md' error traces1
     = (inr tt,
        JS.Map_set traceId
          (with_spans trace
             (RequestTrace.spans trace
                ++ [completed_span finished md' error span])%list)
          traces).
Proof.
  intros Hid Htruthy Hg Hfresh span traces1. split.
  - unfold addRequestSpan, startSpan. rewrite Hid. simpl. rewrite Htruthy.
    simpl. eff_unfold.
    rewrite (addSpan_present uuid started traceId _ traces trace Hg). done.
  - unfold completeRequestSpan. rewrite Hid. simpl. rewrite Htruthy. simpl.
    set (trace1 := with_spans trace (RequestTrace.spans trace ++ [span])%list).
    assert (getTrace traceId traces1 = Some trace1) as Hg1.
    { unfold getTrace, traces1. by rewrite Map_get_set, String.eqb_refl. }
    rewrite (completeSpan_first_run finished traceId uuid md' error
               traces1 trace1 (length (RequestTrace.spans trace)) span Hg1).
    + f_equal. unfold traces1. rewrite Map_set_set. f_equal.
      unfold trace1, with_spans. simpl. f_equal.
      rewrite firstn_app, Nat.sub_diag, firstn_all. simpl.
      rewrite app_nil_r. f_equal.
      rewrite skipn_app, skipn_all2 by lia. simpl.
      replace (S (length (RequestTrace.spans trace))
               - length (RequestTrace.spans trace))%nat with 1%nat by lia.
      done.
    + simpl. rewrite nth_error_app2 by lia. by rewrite Nat.sub_diag.
    + done.
    + intros j s Hj Hs. simpl in Hs. rewrite nth_error_app1 in Hs by lia.
      rewrite List.Forall_forall in Hfresh. apply Hfresh.
      by apply nth_error_In in Hs.
Qed.

End MiddlewareFacts.

(** Extra X25.  An authorised request with a live trace, none of whose
    spans already has the id drawn for the new one, passes the middleware
    of [privateProcedure] with exactly one more span on its trace: the span
    [trpc_auth_validation], completed, carrying the start and end times and
    the outcome [success: true] merged into its metadata; the rest of the
    procedure then runs on that store. *)
Theorem privateProcedure_traces_authorised {A} (uuid : string)
  (started finished : Z) (ctx : TRPC.Context) (next : TRPC.T A)
  (s : TRPC.State) (traceId userId : string) (trace : RequestTrace.t) :
  TRPC.sessionUser ctx = Some userId ->
  Trace.getTraceId (TRPC.c ctx) = Some traceId ->
  JS.truthy_string traceId = true ->
  Trace.getTrace traceId (TRPC.traces s) = Some trace ->
  Forall (fun sp => TraceSpan.id sp <> uuid) (RequestTrace.spans trace) ->
  let span :=
    Trace.completed_span finished (Some (Middleware.granted userId)) None
      (Middleware.authSpan uuid started ctx) in
  Middleware.privateProcedure uuid started finished ctx next s
  = next (TRPC.mkState
            (JS.Map_set traceId
               (Trace.with_spans trace (RequestTrace.spans trace ++ [span]))
               (TRPC.traces s))
            (TRPC.world s))
  /\ TraceSpan.status span = SpanStatus.completed
  /\ TraceSpan.duration span = Some (finished - started)
  /\ JS.Map_get "success" (default [] (TraceSpan.metadata span))
     = Some (JS.ABool true)
  /\ JS.Map_get "procedure" (default [] (TraceSpan.metadata span))
     = Some (JS.AString "private").
Proof.
  intros Huser Hid Htruthy Hg Hfresh span.
  split; [|repeat split; reflexivity].
  destruct (traced_span (TRPC.c ctx) traceId (TRPC.traces s) trace uuid started
              finished "trpc_auth_validation"
              (TraceSpan.metadata (Middleware.authSpan uuid started ctx))
              (TraceSpan.tags (Middleware.authSpan uuid started ctx))
              (Some (Middleware.granted userId)) None Hid Htruthy Hg Hfresh)
    as [Hadd Hdone].
  unfold Middleware.privateProcedure. trpc_unfold.
  unfold span, Middleware.authSpan, Middleware.granted in *. clear span.
  cbn [TraceSpan.metadata TraceSpan.tags] in Hadd, Hdone.
  rewrite Huser in Hadd, Hdone |- *.
  rewrite Hadd. cbv beta iota.
  cbn [TRPC.traces TRPC.world TraceSpan.id]. rewrite Hdone. done.
Qed.

(** Extra X26.  A request without a session user, with a live trace none
    of whose spans already has the id drawn for the new one, is refused by the middleware with a [TRPCError] of code [UNAUTHORIZED] and
    no message; the rest of the procedure never runs, the state of the
    logging services is untouched, and the trace records the refusal as a
    span of status ['error'] with the message
    [UNAUTHORIZED: No session user found]. *)
Theorem privateProcedure_refuses_anonymous {A} (uuid : string)
  (started finished : Z) (ctx : TRPC.Context) (next : TRPC.T A)
  (s : TRPC.State) (traceId : string) (trace : RequestTrace.t) :
  TRPC.sessionUser ctx = None ->
  Trace.getTraceId (TRPC.c ctx) = Some traceId ->
  JS.truthy_string traceId = true ->
  Trace.getTrace traceId (TRPC.traces s) = Some trace ->
  Forall (fun sp => TraceSpan.id sp <> uuid) (RequestTrace.spans trace) ->
  let span :=
    Trace.completed_span finished (Some Middleware.denied)
      (Some "UNAUTHORIZED: No session user found")
      (Middleware.authSpan uuid started ctx) in
  Middleware.privateProcedure uuid started finished ctx next s
  = (inl (TRPC.TRPCError "UNAUTHORIZED" None),
     TRPC.mkState
       (JS.Map_set traceId
          (Trace.with_spans trace (RequestTrace.spans trace ++ [span]))
          (TRPC.traces s))
       (TRPC.world s))
  /\ TraceSpan.status span = SpanStatus.error
  /\ TraceSpan.error span = Some "UNAUTHORIZED: No session user found".
Proof.
  intros Huser Hid Htruthy Hg Hfresh span.
  split; [|done].
  destruct (traced_span (TRPC.c ctx) traceId (TRPC.traces s) trace uuid started
              finished "trpc_auth_validation"
              (TraceSpan.metadata (Middleware.authSpan uuid started ctx))
              (TraceSpan.tags (Middleware.authSpan uuid started ctx))
              (Some Middleware.denied)
              (Some "UNAUTHORIZED: No session user found")
              Hid Htruthy Hg Hfresh)
    as [Hadd Hdone].
  unfold Middleware.privateProcedure. trpc_unfold.
  unfold span, Middleware.authSpan, Middleware.denied in *. clear span.
  cbn [TraceSpan.metadata TraceSpan.tags] in Hadd, Hdone.
  rewrite Huser in Hadd, Hdone |- *.
  rewrite Hadd. cbv beta iota.
  cbn [TRPC.traces TRPC.world TraceSpan.id]. rewrite Hdone. done.
Qed.

(** Extra X27.  When the trace of the request is no longer in the store
    (evicted by a cleanup, or removed by the timeout of [completeTrace]),
    the middleware of [privateProcedure] fails with the error
    [Trace not found] of [addSpan], for an authorised request too: the rest
    of the procedure never runs and nothing is changed. *)
Theorem privateProcedure_fails_without_trace {A} (uuid : string)
  (started finished : Z) (ctx : TRPC.Context) (next : TRPC.T A)
  (s : TRPC.State) (traceId : string) :
  Trace.getTraceId (TRPC.c ctx) = Some traceId ->
  JS.truthy_string traceId = true ->
  Trace.getTrace traceId (TRPC.traces s) = None ->
  Middleware.privateProcedure uuid started finished ctx next s
  = (inl (TRPC.Uncaught (JS.Error ("Trace not found: " +:+ traceId))), s).
Proof.
  intros Hid Htruthy Hg.
  unfold Middleware.privateProcedure. trpc_unfold.
  unfold Trace.addRequestSpan, Trace.startSpan. rewrite Hid. simpl.
  rewrite Htruthy. simpl. eff_unfold.
  rewrite (unknown_ids_leave_store_aux (TRPC.traces s) traceId Hg).
  by destruct s.
Qed.

Lemma privateProcedure_untraced_aux {A} (uuid : string)
  (started finished : Z) (ctx : TRPC.Context) (next : TRPC.T A)
  (s : TRPC.State) :
  JS.truthy (Trace.getTraceId (TRPC.c ctx)) = false ->
  Middleware.privateProcedure uuid started finished ctx next s
  = match TRPC.sessionUser ctx with
    | None => (inl (TRPC.TRPCError "UNAUTHORIZED" None), s)
    | Some _ => next s
    end.
Proof.
  intros Hid. unfold Middleware.privateProcedure. trpc_unfold.
  rewrite addRequestSpan_unresolved by done.
  destruct (TRPC.sessionUser ctx); by destruct s.
Qed.

(** Extra X28.  Without a trace identifier in the context the middleware of
    [privateProcedure] is the bare authorisation gate: it refuses a request
    without session user with [UNAUTHORIZED] and otherwise hands over to the
    rest of the procedure, in both cases on an unchanged state. *)
Theorem privateProcedure_untraced {A} (uuid : string)
  (started finished : Z) (ctx : TRPC.Context) (next : TRPC.T A)
  (s : TRPC.State) :
  JS.truthy (Trace.getTraceId (TRPC.c ctx)) = false ->
  Middleware.privateProcedure uuid started finished ctx next s
  = match TRPC.sessionUser ctx with
    | None => (inl (TRPC.TRPCError "UNAUTHORIZED" None), s)
    | Some _ => next s
    end.
Proof. apply privateProcedure_untraced_aux. Qed.

Lemma privateProcedure_traces_authorised_witness :
  Trace.getTrace "1" (TRPC.traces SampleRequest.state)
  = Some (Sample.newTrace "1" 0)
  /\ Middleware.privateProcedure "span-9" 5 6 SampleRequest.authorised
       (TRPC.ret tt) SampleRequest.state
     = (inr tt,
        TRPC.mkState
          (JS.Map_set "1"
             (Trace.with_spans (Sample.newTrace "1" 0)
                [Trace.completed_span 6 (Some (Middleware.granted "user-1"))
                   None
                   (Middleware.authSpan "span-9" 5 SampleRequest.authorised)])
             (TRPC.traces SampleRequest.state))
          (TRPC.world SampleRequest.state)).
Proof.
  split; [reflexivity|].
  exact (proj1 (privateProcedure_traces_authorised "span-9" 5 6
                  SampleRequest.authorised (TRPC.ret tt) SampleRequest.state
                  "1" "user-1" (Sample.newTrace "1" 0)
                  eq_refl eq_refl eq_refl eq_refl (List.Forall_nil _))).
Defined.

Lemma privateProcedure_refuses_anonymous_witness :
  TRPC.sessionUser SampleRequest.anonymous = None
  /\ fst (Middleware.privateProcedure "span-9" 5 6 SampleRequest.anonymous
            (TRPC.ret tt) SampleRequest.state)
     = inl (TRPC.TRPCError "UNAUTHORIZED" None).
Proof.
  split; [reflexivity|].
  exact (f_equal fst
    (proj1 (privateProcedure_refuses_anonymous "span-9" 5 6
              SampleRequest.anonymous (TRPC.ret tt) SampleRequest.state
              "1" (Sample.newTrace "1" 0)
              eq_refl eq_refl eq_refl eq_refl (List.Forall_nil _)))).
Defined.

Lemma privateProcedure_fails_without_trace_witness :
  Trace.getTrace "1" (TRPC.traces SampleRequest.evicted) = None
  /\ Middleware.privateProcedure "span-9" 5 6 SampleRequest.authorised
       (TRPC.ret tt) SampleRequest.evicted
     = (inl (TRPC.Uncaught (JS.Error "Trace not found: 1")),
        SampleRequest.evicted).
Proof.
  split; [reflexivity|].
  exact (privateProcedure_fails_without_trace "span-9" 5 6
           SampleRequest.authorised (TRPC.ret tt) SampleRequest.evicted "1"
           eq_refl eq_refl eq_refl).
Defined.

Lemma privateProcedure_untraced_witness :
  JS.truthy (Trace.getTraceId (TRPC.c SampleRequest.untraced)) = false
  /\ Middleware.privateProcedure "span-9" 5 6 SampleRequest.untraced
       (TRPC.ret tt) SampleRequest.state
     = (inr tt, SampleRequest.state).
Proof.
  split; [reflexivity|].
  exact (privateProcedure_untraced "span-9" 5 6 SampleRequest.untraced
           (TRPC.ret tt) SampleRequest.state eq_refl).
Defined.



(** Extra X30.  The handlers of the logging router need the exporter's
    credentials although none of them exports: for a request with a session
    user, a missing or blank API key makes each of the three handlers fail
    with the constructor's error and change nothing (the API key is checked
    before the application key); with both keys they run the service
    method on the session named by the user's id. *)
Theorem handlers_need_credentials (trim : string -> string) (now : Z)
  (ctx : TRPC.Context) (s : TRPC.State) (userId : string) :
  TRPC.sessionUser ctx = Some userId ->
  let apiBlank := Config.blank trim (Env.DD_API_KEY (TRPC.env ctx)) in
  let appBlank := Config.blank trim (Env.DD_APP_KEY (TRPC.env ctx)) in
  let failed {A} (message : string) : (TRPC.Thrown + A) * TRPC.State :=
    (inl (TRPC.Uncaught (JS.Error message)), s) in
  (apiBlank = true ->
   LoggingRouter.getSessionStats trim now ctx s
   = failed Config.api_key_required
   /\ LoggingRouter.clearSession trim now ctx s
      = failed Config.api_key_required
   /\ LoggingRouter.getSessionState trim now ctx s
      = failed Config.api_key_required)
  /\ (apiBlank = false -> appBlank = true ->
      LoggingRouter.getSessionStats trim now ctx s
      = failed Config.app_key_required
      /\ LoggingRouter.clearSession trim now ctx s
         = failed Config.app_key_required
      /\ LoggingRouter.getSessionState trim now ctx s
         = failed Config.app_key_required)
  /\ (apiBlank = false -> appBlank = false ->
      LoggingRouter.getSessionStats trim now ctx s
      = TRPC.on_world (Logging.getSessionStats now userId) s
      /\ LoggingRouter.clearSession trim now ctx s
         = (inr true,
            TRPC.mkState (TRPC.traces s)
              (Eff.final (Logging.clearSession now userId) (TRPC.world s)))
      /\ LoggingRouter.getSessionState trim now ctx s
         = TRPC.on_world (Logging.getState now userId) s).
Proof.
  intros Huser apiBlank appBlank failed.
  unfold LoggingRouter.getSessionStats, LoggingRouter.clearSession,
    LoggingRouter.getSessionState, Config.newLoggingService,
    Config.newDatadogService.
  rewrite Huser. simpl. fold apiBlank appBlank.
  split_and!.
  - intros ->. trpc_unfold. unfold failed. by destruct s.
  - intros -> ->. trpc_unfold. unfold failed. by destruct s.
  - intros -> ->. trpc_unfold. split_and!.
    + by destruct s.
    + unfold Eff.final. by destruct s.
    + by destruct s.
Qed.

Lemma handlers_need_credentials_witness :
  TRPC.sessionUser SampleRequest.untraced = Some "user-1"
  /\ LoggingRouter.getSessionStats SampleRequest.trim 9 SampleRequest.untraced
       SampleRequest.state
     = (inl (TRPC.Uncaught (JS.Error Config.api_key_required)),
        SampleRequest.state).
Proof.
  split; [reflexivity|].
  exact (proj1 (proj1
    (handlers_need_credentials SampleRequest.trim 9 SampleRequest.untraced
       SampleRequest.state "user-1" eq_refl) eq_refl)).
Defined.
